(** * aistore: content registry, FQN codec and the bucket-copy xaction

    A shallow embedding of [fs/content.go] (the content-type registry and
    the encode/decode of fully qualified names), of the bucket-copy
    xaction of package [mirror] ([XactBckCopy], [bccJogger]) and of
    [shortHostname] of package [glog].

    Go strings are byte strings: they are modelled by [string], one [ascii]
    per byte.  Go maps with string keys are modelled by [gmap string _]. *)

From Stdlib Require Import ZArith Lia Ascii.
From stdpp Require Import base option list gmap strings.

Local Open Scope Z_scope.

(** ** The parts of the Go standard library that the code calls *)

Module Go.

(** [len(s)] *)
Definition len (s : string) : nat := String.length s.

(** [s[n:]] *)
Fixpoint slice_from (n : nat) (s : string) : string :=
  match n, s with
  | O, _ => s
  | S n', String _ s' => slice_from n' s'
  | S _, EmptyString => EmptyString
  end.

(** [s[:n]] *)
Fixpoint slice_to (n : nat) (s : string) : string :=
  match n, s with
  | O, _ => EmptyString
  | S n', String c s' => String c (slice_to n' s')
  | S _, EmptyString => EmptyString
  end.

(** [strings.IndexByte(s, c)]; Go's -1 is [None].  [strings.Index] with a
    one-byte substring, and [strings.IndexRune] with a rune below
    [utf8.RuneSelf], are this function. *)
Fixpoint IndexByte (s : string) (c : ascii) : option nat :=
  match s with
  | EmptyString => None
  | String a s' =>
      if Ascii.eqb a c then Some O else option_map S (IndexByte s' c)
  end.

(** [strings.LastIndexByte(s, c)]; [strings.LastIndex] with a one-byte
    substring is this function. *)
Fixpoint LastIndexByte (s : string) (c : ascii) : option nat :=
  match s with
  | EmptyString => None
  | String a s' =>
      match LastIndexByte s' c with
      | Some i => Some (S i)
      | None => if Ascii.eqb a c then Some O else None
      end
  end.

(** [strings.ContainsRune(s, r)] for an ASCII rune: [IndexRune(s, r) >= 0]. *)
Definition ContainsRune (s : string) (r : ascii) : bool :=
  match IndexByte s r with Some _ => true | None => false end.

(** [strings.HasSuffix(s, suffix)]:
    [len(s) >= len(suffix) && s[len(s)-len(suffix):] == suffix]. *)
Definition HasSuffix (s suffix : string) : bool :=
  (len suffix <=? len s)%nat
  && String.eqb (slice_from (len s - len suffix) s) suffix.

(** [filepath.Separator] on Unix. *)
Definition Separator : ascii := "/"%char.

(** [filepath.Split(path)]: splits immediately after the final separator;
    without a separator the directory is empty. *)
Definition Split (path : string) : string * string :=
  match LastIndexByte path Separator with
  | Some i => (slice_to (S i) path, slice_from (S i) path)
  | None => (EmptyString, path)
  end.

(** The elements of a path between separators (empty elements included). *)
Fixpoint elements (path : string) : list string :=
  match path with
  | EmptyString => [EmptyString]
  | String c p =>
      if Ascii.eqb c Separator then EmptyString :: elements p
      else match elements p with
           | e :: es => String c e :: es
           | [] => [String c EmptyString]
           end
  end.

(** One element of [filepath.Clean]'s scan.  [out] is the output built so
    far, last element first.  An empty element and [.] are dropped; [..]
    removes the last real element when there is one, is dropped at the
    root, and is kept at the head of a relative path. *)
Definition clean_step (rooted : bool) (out : list string) (e : string)
  : list string :=
  if String.eqb e "" then out
  else if String.eqb e "." then out
  else if String.eqb e ".." then
    match out with
    | top :: rest => if String.eqb top ".." then e :: out else rest
    | [] => if rooted then [] else [e]
    end
  else e :: out.

(** [strings.Join(elems, "/")] *)
Fixpoint join_sep (es : list string) : string :=
  match es with
  | [] => EmptyString
  | [e] => e
  | e :: es' => e +:+ "/" +:+ join_sep es'
  end.

Definition is_rooted (path : string) : bool :=
  match path with
  | String c _ => Ascii.eqb c Separator
  | EmptyString => false
  end.

(** [filepath.Clean(path)] on Unix. *)
Definition Clean (path : string) : string :=
  let rooted := is_rooted path in
  let out := fold_left (clean_step rooted) (elements path) [] in
  let body := join_sep (rev out) in
  if rooted then "/" +:+ body
  else if String.eqb body "" then "." else body.

(** [filepath.Join(a, b)]: the elements from the first non-empty one on
    are joined with the separator and cleaned; all empty gives [""]. *)
Definition Join (a b : string) : string :=
  if negb (String.eqb a "") then Clean (a +:+ "/" +:+ b)
  else if negb (String.eqb b "") then Clean b
  else "".

(** *** strconv *)

Definition byte_val (c : ascii) : Z := Z.of_N (N_of_ascii c).

(** The digit value of a byte in [strconv.ParseUint]: ['0'..'9'], or a
    letter (either case) counted from 10. *)
Definition digit_val (c : ascii) : option Z :=
  let v := byte_val c in
  let lower := Z.lor v 32 in
  if (48 <=? v) && (v <=? 57) then Some (v - 48)
  else if (97 <=? lower) && (lower <=? 122) then Some (lower - 97 + 10)
  else None.

Definition maxUint64 : Z := 2 ^ 64 - 1.

(** The loop of [strconv.ParseUint(s, 16, 64)] from accumulator [n];
    [None] is any error (syntax or range). *)
Fixpoint ParseUint_loop (s : string) (n : Z) : option Z :=
  match s with
  | EmptyString => Some n
  | String c s' =>
      match digit_val c with
      | None => None
      | Some d =>
          if 16 <=? d then None
          else if (maxUint64 / 16 + 1) <=? n then None
          else
            let n1 := n * 16 + d in
            if maxUint64 <? n1 then None else ParseUint_loop s' n1
      end
  end.

Definition ParseUint16 (s : string) : option Z :=
  match s with
  | EmptyString => None
  | _ => ParseUint_loop s 0
  end.

(** [strconv.ParseInt(s, 16, 64)]; [None] stands for [err != nil]. *)
Definition ParseInt16 (s : string) : option Z :=
  match s with
  | EmptyString => None
  | String c s' =>
      let neg := Ascii.eqb c "-" in
      let body := if Ascii.eqb c "+" || neg then s' else s in
      match ParseUint16 body with
      | None => None
      | Some un =>
          let cutoff := 2 ^ 63 in
          if negb neg && (cutoff <=? un) then None
          else if neg && (cutoff <? un) then None
          else Some (if neg then - un else un)
      end
  end.

(** A hexadecimal digit, lower case, as [strconv.FormatInt] writes it. *)
Definition hex_digit (d : Z) : ascii :=
  if d <? 10 then ascii_of_N (Z.to_N (48 + d))
  else ascii_of_N (Z.to_N (97 + d - 10)).

(** The digits of [u], most significant first, in front of [acc]. *)
Fixpoint hex_digits (fuel : nat) (u : Z) (acc : string) : string :=
  match fuel with
  | O => acc
  | S fuel' =>
      let acc' := String (hex_digit (u mod 16)) acc in
      if u / 16 =? 0 then acc' else hex_digits fuel' (u / 16) acc'
  end.

(** [strconv.FormatInt(i, 16)] for an int64 [i]: at most 16 digits. *)
Definition FormatInt16 (i : Z) : string :=
  if i <? 0 then String "-" (hex_digits 16 (- i) EmptyString)
  else hex_digits 16 i EmptyString.

End Go.


(** ** Package fs: content types and their resolvers (fs/content.go) *)

Definition contentTypeLen : nat := 2.

Definition ObjectType : string := "ob".
Definition WorkfileType : string := "wk".
Definition ECSliceType : string := "ec".
Definition ECMetaType : string := "mt".

(** The interface [ContentResolver], as the record of its methods.
    [GenUniqueFQN] takes one more argument than in Go: the string that
    [cos.GenTie()] returns during the call (a read of a global counter);
    only the workfile resolver uses it. *)
Record ContentResolver : Type := {
  PermToMove : bool;
  PermToEvict : bool;
  PermToProcess : bool;
  GenUniqueFQN : string -> string -> string -> string;
  ParseUniqueFQN : string -> string * bool * bool
}.

(** [ContentInfo]; the Go field [Type] is [CType] here. *)
Record ContentInfo : Type := {
  Dir : string;
  Base : string;
  CType : string;
  Old : bool
}.

(** [contentSpecMgr]: the registry.  Its map holds resolver
    implementations, never a nil interface value. *)
Record contentSpecMgr : Type := { m : gmap string ContentResolver }.

(** What fs/content.go takes from the rest of package fs and from cmn: the
    bucket and mountpath types, [Mountpath.MakePathFQN] and [ParseFQN] with
    the [ContentType] field of its result.  [ParseFQN] returning [None]
    stands for [err != nil]. *)
Class FQNLayout : Type := {
  Bck : Type;
  Mountpath : Type;
  ParsedFQN : Type;
  ContentType : ParsedFQN -> string;
  MakePathFQN : Mountpath -> Bck -> string -> string -> string;
  ParseFQN : string -> option ParsedFQN
}.

(** The interface [PartsFQN]. *)
Record PartsFQN `{FQNLayout} : Type := {
  ObjectName : string;
  Bucket : Bck;
  PartsMountpath : Mountpath;
  CacheIdx : Z
}.

(** *** The four resolvers *)

Definition ObjectContentResolver : ContentResolver := {|
  PermToMove := true;
  PermToEvict := true;
  PermToProcess := true;
  GenUniqueFQN := fun _ base _ => base;
  ParseUniqueFQN := fun base => (base, false, true)
|}.

(** Modelled from the spec: the package variable [spid], which is set
    where the process starts and is not in fs/content.go; the spec gives
    the last field of a workfile name as [hex(pid)]. *)
Definition spid (pid : Z) : string := Go.FormatInt16 pid.

(** [GenUniqueFQN] of [WorkfileContentResolver] in the process [pid], with
    [tieBreaker] the result of [cos.GenTie()]. *)
Definition Workfile_GenUniqueFQN (pid : Z) (tieBreaker base prefix : string)
  : string :=
  let '(dir, fname) := Go.Split base in
  let fname := prefix +:+ "." +:+ fname in
  let base := Go.Join dir fname in
  base +:+ "." +:+ tieBreaker +:+ "." +:+ spid pid.

(** [ParseUniqueFQN] of [WorkfileContentResolver] in the process [pid]:
    the result is [(orig, old, ok)]. *)
Definition Workfile_ParseUniqueFQN (pid : Z) (base : string)
  : string * bool * bool :=
  match Go.IndexByte base "." with
  | None => ("", false, false)
  | Some cntIndex =>
      let base := Go.slice_from (cntIndex + 1) base in
      match Go.LastIndexByte base "." with
      | None => ("", false, false)
      | Some pidIndex =>
          match Go.LastIndexByte (Go.slice_to pidIndex base) "." with
          | None => ("", false, false)
          | Some tieIndex =>
              match Go.ParseInt16 (Go.slice_from (pidIndex + 1) base) with
              | None => ("", false, false)
              | Some filePID =>
                  (Go.slice_to tieIndex base, negb (filePID =? pid), true)
              end
          end
      end
  end.

Definition WorkfileContentResolver (pid : Z) : ContentResolver := {|
  PermToMove := false;
  PermToEvict := true;
  PermToProcess := false;
  GenUniqueFQN := Workfile_GenUniqueFQN pid;
  ParseUniqueFQN := Workfile_ParseUniqueFQN pid
|}.

Definition ECSliceContentResolver : ContentResolver := {|
  PermToMove := true;
  PermToEvict := true;
  PermToProcess := false;
  GenUniqueFQN := fun _ base _ => base;
  ParseUniqueFQN := fun base => (base, false, true)
|}.

Definition ECMetaContentResolver : ContentResolver := {|
  PermToMove := true;
  PermToEvict := true;
  PermToProcess := false;
  GenUniqueFQN := fun _ base _ => base;
  ParseUniqueFQN := fun base => (base, false, true)
|}.

(** *** The methods of [contentSpecMgr] *)

Module CSM.
Section Methods.
Context `{L : FQNLayout}.

(** [Resolver]: a missing key gives the nil interface, [None]. *)
Definition Resolver (f : contentSpecMgr) (contentType : string)
  : option ContentResolver :=
  m f !! contentType.

(** [Reg]: the registry after the call and the error ([None] is nil). *)
Definition Reg (f : contentSpecMgr) (contentType : string)
  (spec : ContentResolver) : contentSpecMgr * option string :=
  if Go.ContainsRune contentType Go.Separator then
    (f, Some (contentType +:+ " content type cannot contain '/'"))
  else if negb (Go.len contentType =? contentTypeLen)%nat then
    (f, Some (contentType +:+ " content type must have length 2"))
  else match m f !! contentType with
       | Some _ =>
           (f, Some (contentType +:+ " content type is already registered"))
       | None => ({| m := <[contentType := spec]> (m f) |}, None)
       end.

(** [Gen]: [None] is the run-time panic of calling [GenUniqueFQN] on the
    nil interface that the map gives for a missing key.  [tie] is what
    [cos.GenTie()] returns if the resolver calls it. *)
Definition Gen (f : contentSpecMgr) (tie : string) (parts : PartsFQN)
  (contentType prefix : string) : option string :=
  match m f !! contentType with
  | None => None
  | Some spec =>
      let objName := GenUniqueFQN spec tie (ObjectName parts) prefix in
      Some (MakePathFQN (PartsMountpath parts) (Bucket parts)
              contentType objName)
  end.

(** [FileSpec]: both results are [None] (nil) on every early return; the
    log line for an unknown content type is not modelled. *)
Definition FileSpec (f : contentSpecMgr) (fqn : string)
  : option ContentResolver * option ContentInfo :=
  let '(dir, base) := Go.Split fqn in
  if negb (Go.HasSuffix dir "/") || String.eqb base "" then (None, None)
  else match ParseFQN fqn with
       | None => (None, None)
       | Some parsedFQN =>
           match m f !! ContentType parsedFQN with
           | None => (None, None)
           | Some spec =>
               let '(origBase, old, ok) := ParseUniqueFQN spec base in
               if negb ok then (None, None)
               else (Some spec,
                     Some {| Dir := dir; Base := origBase; Old := old;
                             CType := ContentType parsedFQN |})
           end
       end.

(** [PermToEvict]: [(ok, isOld)]; [None] would be the panic of reading
    [info.Old] through a nil [info]. *)
Definition PermToEvict (f : contentSpecMgr) (fqn : string)
  : option (bool * bool) :=
  match FileSpec f fqn with
  | (None, _) => Some (true, false)
  | (Some spec, Some info) => Some (PermToEvict spec, Old info)
  | (Some _, None) => None
  end.

Definition PermToMove (f : contentSpecMgr) (fqn : string) : bool :=
  match FileSpec f fqn with
  | (None, _) => false
  | (Some spec, _) => PermToMove spec
  end.

Definition PermToProcess (f : contentSpecMgr) (fqn : string) : bool :=
  match FileSpec f fqn with
  | (None, _) => false
  | (Some spec, _) => PermToProcess spec
  end.

End Methods.
End CSM.

(** *** A layout to run the codec on *)

(** Modelled from the spec: [Mountpath.MakePathFQN] and [ParseFQN] are
    not in fs/content.go.  The spec has an FQN encode mountpath root,
    bucket, content type and unique name, the mountpath combining its root
    with the other three; this layout writes them as path elements in that
    order, [/root/bucket/type/name], for a one-element root. *)
Record ParsedFQN_model : Type := {
  parsed_Bck : string;
  parsed_ContentType : string;
  parsed_ObjName : string
}.

Definition MakePathFQN_model (root bck contentType objName : string)
  : string :=
  root +:+ "/" +:+ bck +:+ "/" +:+ contentType +:+ "/" +:+ objName.

Definition ParseFQN_model (fqn : string) : option ParsedFQN_model :=
  match Go.elements fqn with
  | root0 :: _ :: bck :: contentType :: e :: rest =>
      if String.eqb root0 "" then
        Some {| parsed_Bck := bck; parsed_ContentType := contentType;
                parsed_ObjName := Go.join_sep (e :: rest) |}
      else None
  | _ => None
  end.

#[local] Instance layout_model : FQNLayout := {|
  Bck := string;
  Mountpath := string;
  ParsedFQN := ParsedFQN_model;
  ContentType := parsed_ContentType;
  MakePathFQN := MakePathFQN_model;
  ParseFQN := ParseFQN_model
|}.

(** The registry after start-up: the four content types, registered in
    turn with [Reg] in the process [pid]. *)
Definition registry_model (pid : Z) : contentSpecMgr :=
  let f0 := {| m := ∅ |} in
  let f1 := (CSM.Reg f0 ObjectType ObjectContentResolver).1 in
  let f2 := (CSM.Reg f1 WorkfileType (WorkfileContentResolver pid)).1 in
  let f3 := (CSM.Reg f2 ECSliceType ECSliceContentResolver).1 in
  (CSM.Reg f3 ECMetaType ECMetaContentResolver).1.

Definition parts_model (objName : string) : PartsFQN :=
  {| ObjectName := objName; Bucket := "bck"; PartsMountpath := "/mp";
     CacheIdx := 0 |}.


(** ** Package mirror: the bucket-copy xaction *)

(** What the xaction takes from package cmn, which is not among the
    sources: the Go [error] values it handles, with their out-of-space
    classification and their text, the constructor of an abort error, the
    quoting of the [%q] verb, and the throttling interval. *)
Class Cmn : Type := {
  error : Type;
  IsErrOOS : error -> bool;
  ErrorText : error -> string;
  NewAbortedErrorDetails : string -> string -> error;
  Quote : string -> string;
  throttleNumObjects : Z
}.

(** [int64] arithmetic wraps around. *)
Definition wrap64 (z : Z) : Z := (z + 2 ^ 63) mod 2 ^ 64 - 2 ^ 63.

(** [cluster.LOM], as far as the xaction reads it. *)
Record LOM : Type := { lomName : string; Size : Z }.

Section BucketCopy.
Context `{C : Cmn}.

Inductive Event : Type :=
| EvSlabAlloc (b : nat)
| EvSlabFree (b : option nat)
| EvCopyObject (lom : LOM) (buf : option nat)
| EvObjectsInc
| EvBytesAdd (n : Z)
| EvNumInc
| EvGetCapStatus
| EvJoggerDone (err : option error).

(** The job a jogger works for: kind and id of the xaction, and the two
    collaborators the callback consults, [Target().CopyObject] (result
    [(copied, err)], for the object and the buffer passed in the params)
    and [fs.GetCapStatus()] ([cs.Err] at the n-th poll). *)
Record Job : Type := {
  Kind : string;
  ID : string;
  CopyObject : LOM -> option nat -> bool * option error;
  GetCapStatus : nat -> option error
}.

(** The state a jogger acts on: the counters of its parent xaction, its
    own [num] and [buf], the buffers of the slab that are handed out, the
    number of capacity polls so far and the history of calls, most recent
    first. *)
Record State : Type := {
  objCount : Z;
  bytesCount : Z;
  num : Z;
  buf : option nat;
  slabLive : gset nat;
  capPolls : nat;
  trace : list Event
}.

Definition M (A : Type) : Type := State -> A * State.

Definition ret {A : Type} (a : A) : M A := fun s => (a, s).

Definition bind {A B : Type} (c : M A) (k : A -> M B) : M B :=
  fun s => let '(a, s') := c s in k a s'.

Notation "x <- c ;; k" := (bind c (fun x => k))
  (at level 100, c at next level, right associativity).
Notation "c ;;; k" := (bind c (fun _ => k))
  (at level 100, right associativity).

Definition log (e : Event) (s : State) : State :=
  {| objCount := objCount s; bytesCount := bytesCount s; num := num s;
     buf := buf s; slabLive := slabLive s; capPolls := capPolls s;
     trace := e :: trace s |}.

(** Modelled from the spec: [ObjectsInc()] of the xaction base, which is
    not among the sources; it adds one to the count of objects
    processed. *)
Definition ObjectsInc : M unit := fun s =>
  (tt, log EvObjectsInc
         {| objCount := wrap64 (objCount s + 1); bytesCount := bytesCount s;
            num := num s; buf := buf s; slabLive := slabLive s;
            capPolls := capPolls s; trace := trace s |}).

(** Modelled from the spec: [BytesAdd(n)] of the xaction base, which is
    not among the sources; it adds [n] to the count of bytes moved. *)
Definition BytesAdd (n : Z) : M unit := fun s =>
  (tt, log (EvBytesAdd n)
         {| objCount := objCount s; bytesCount := wrap64 (bytesCount s + n);
            num := num s; buf := buf s; slabLive := slabLive s;
            capPolls := capPolls s; trace := trace s |}).

(** [j.num++] *)
Definition num_inc : M unit := fun s =>
  (tt, log EvNumInc
         {| objCount := objCount s; bytesCount := bytesCount s;
            num := wrap64 (num s + 1); buf := buf s; slabLive := slabLive s;
            capPolls := capPolls s; trace := trace s |}).

Definition get_num : M Z := fun s => (num s, s).

Definition get_buf : M (option nat) := fun s => (buf s, s).

Definition set_buf (b : option nat) : M unit := fun s =>
  (tt, {| objCount := objCount s; bytesCount := bytesCount s; num := num s;
          buf := b; slabLive := slabLive s; capPolls := capPolls s;
          trace := trace s |}).

(** [fs.GetCapStatus()]: the error field of the status polled. *)
Definition poll_cap (job : Job) : M (option error) := fun s =>
  (GetCapStatus job (capPolls s),
   log EvGetCapStatus
     {| objCount := objCount s; bytesCount := bytesCount s; num := num s;
        buf := buf s; slabLive := slabLive s; capPolls := S (capPolls s);
        trace := trace s |}).

(** [j.parent.Target().CopyObject(lom, params)] *)
Definition call_CopyObject (job : Job) (lom : LOM) (b : option nat)
  : M (bool * option error) := fun s =>
  (CopyObject job lom b, log (EvCopyObject lom b) s).

(** Modelled from the spec: [slab.Alloc()] of package memsys, which is
    not among the sources; the shared pool hands out a buffer that no
    other worker holds. *)
Definition slab_Alloc : M nat := fun s =>
  let b := fresh (slabLive s) in
  (b, log (EvSlabAlloc b)
        {| objCount := objCount s; bytesCount := bytesCount s; num := num s;
           buf := buf s; slabLive := {[ b ]} ∪ slabLive s;
           capPolls := capPolls s; trace := trace s |}).

(** Modelled from the spec: [slab.Free(buf)] of package memsys; the
    buffer (if the slice is one) goes back to the pool. *)
Definition slab_Free (b : option nat) : M unit := fun s =>
  (tt, log (EvSlabFree b)
         {| objCount := objCount s; bytesCount := bytesCount s; num := num s;
            buf := buf s;
            slabLive := match b with
                        | Some b' => slabLive s ∖ {[ b' ]}
                        | None => slabLive s
                        end;
            capPolls := capPolls s; trace := trace s |}).

(** [fmt.Sprintf("%s(%q)", j.parent.Kind(), j.parent.ID())] *)
Definition what (job : Job) : string :=
  Kind job +:+ "(" +:+ Quote (ID job) +:+ ")".

(** The body of [if copied { ... }] in [copyObject]: [Some e] is the
    [return e] inside it, [None] is falling through. *)
Definition copied_branch (job : Job) (lom : LOM) : M (option error) :=
  ObjectsInc ;;;
  BytesAdd (wrap64 (Size lom + Size lom)) ;;;
  num_inc ;;;
  n <- get_num ;;
  if Z.rem n throttleNumObjects =? 0 then
    cs <- poll_cap job ;;
    match cs with
    | Some csErr =>
        ret (Some (NewAbortedErrorDetails (what job) (ErrorText csErr)))
    | None => ret None
    end
  else ret None.

(** [bccJogger.copyObject]: the error returned ([None] is nil).
    [cmn.IsErrOOS] is false on a nil error. *)
Definition copyObject (job : Job) (lom : LOM) : M (option error) :=
  b <- get_buf ;;
  r <- call_CopyObject job lom b ;;
  early <- (if r.1 then copied_branch job lom else ret None) ;;
  match early with
  | Some e => ret (Some e)
  | None =>
      match r.2 with
      | Some err =>
          if IsErrOOS err
          then ret (Some (NewAbortedErrorDetails (what job) (ErrorText err)))
          else ret (Some err)
      | None => ret None
      end
  end.

(** Modelled from the spec: [joggerBckBase.jog], which is not among the
    sources; the jogger applies the callback to each object of its
    mountpath in turn, for bucket copy stops at the first error, and
    reports completion with that error to its xaction. *)
Fixpoint walk (callback : LOM -> M (option error)) (loms : list LOM)
  : M (option error) :=
  match loms with
  | [] => ret None
  | lom :: rest =>
      e <- callback lom ;;
      match e with
      | Some _ => ret e
      | None => walk callback rest
      end
  end.

Definition joggerBckBase_jog (callback : LOM -> M (option error))
  (loms : list LOM) : M unit :=
  e <- walk callback loms ;;
  fun s => (tt, log (EvJoggerDone e) s).

(** [bccJogger.jog] over the objects [loms] of its mountpath. *)
Definition jog (job : Job) (loms : list LOM) : M unit :=
  b <- slab_Alloc ;;
  set_buf (Some b) ;;;
  joggerBckBase_jog (copyObject job) loms ;;;
  b' <- get_buf ;;
  slab_Free b'.

Definition is_slab_event (e : Event) : bool :=
  match e with
  | EvSlabAlloc _ | EvSlabFree _ => true
  | _ => false
  end.

End BucketCopy.

(** *** [XactBckCopy.Run]: the controlling goroutine and its joggers *)

Section RunModel.
Context `{C : Cmn} {MountpathInfo : Type}.

(** What an execution of [Run] does, as seen from outside. *)
Inductive RunEvent : Type :=
| EvOpen
| EvGo (mpathInfo : MountpathInfo)
| EvReport (mpathInfo : MountpathInfo) (err : option error)
| EvWaitDone (err : option error)
| EvSleep (seconds : Z)
| EvClose
| EvUnregRecv
| EvFinish (err : option error).

(** Where the goroutine that runs [Run] stands: before [r.dm.Open()], in
    the range loop of [runJoggers] with the mountpaths still to visit
    (entered with the snapshot of [fs.Get()] and its length as
    [mpathCount]), inside [waitDone] with the number of reports still
    awaited and the first error received, and before each of the
    statements that follow. *)
Inductive Pc : Type :=
| PcOpen
| PcRunJoggers (rest : list MountpathInfo)
| PcWaitDone (awaited : nat) (first : option error)
| PcSleep (err : option error)
| PcClose (err : option error)
| PcUnregRecv (err : option error)
| PcFinish (err : option error)
| PcReturned (err : option error).

(** The xaction while [Run] executes: the joggers launched that have not
    reported yet, the reports sent and not yet received, and the history of
    events, most recent first. *)
Record Sys : Type := {
  pc : Pc;
  mpathCount : nat;
  joggers : list MountpathInfo;
  doneCh : list (option error);
  history : list RunEvent
}.

Definition Sys_init : Sys :=
  {| pc := PcOpen; mpathCount := 0; joggers := []; doneCh := [];
     history := [] |}.

(** [waitDone] keeps the first non-nil error it receives. *)
Definition first_error (first e : option error) : option error :=
  match first with
  | Some _ => first
  | None => e
  end.

(** Modelled from the spec: the joggers' side ([step_report]) and
    [waitDone] ([step_recv], [step_wait_ret]), which are not among the
    sources: a jogger reports its completion, with or without an error,
    once; [waitDone(n)] blocks until n joggers have reported and returns
    the first error.  The other steps follow [Run] and [runJoggers]
    statement by statement, over the snapshot [availablePaths] that
    [fs.Get()] returns. *)
Inductive step (availablePaths : list MountpathInfo) : Sys -> Sys -> Prop :=
| step_open s :
    pc s = PcOpen ->
    step availablePaths s
      {| pc := PcRunJoggers availablePaths;
         mpathCount := length availablePaths;
         joggers := joggers s; doneCh := doneCh s;
         history := EvOpen :: history s |}
| step_go s mpathInfo rest :
    pc s = PcRunJoggers (mpathInfo :: rest) ->
    step availablePaths s
      {| pc := PcRunJoggers rest; mpathCount := mpathCount s;
         joggers := mpathInfo :: joggers s; doneCh := doneCh s;
         history := EvGo mpathInfo :: history s |}
| step_joggers_ret s :
    pc s = PcRunJoggers [] ->
    step availablePaths s
      {| pc := PcWaitDone (mpathCount s) None; mpathCount := mpathCount s;
         joggers := joggers s; doneCh := doneCh s; history := history s |}
| step_report s before mpathInfo after err :
    joggers s = before ++ mpathInfo :: after ->
    step availablePaths s
      {| pc := pc s; mpathCount := mpathCount s;
         joggers := before ++ after; doneCh := doneCh s ++ [err];
         history := EvReport mpathInfo err :: history s |}
| step_recv s awaited first e queue :
    pc s = PcWaitDone (S awaited) first ->
    doneCh s = e :: queue ->
    step availablePaths s
      {| pc := PcWaitDone awaited (first_error first e);
         mpathCount := mpathCount s; joggers := joggers s;
         doneCh := queue; history := history s |}
| step_wait_ret s first :
    pc s = PcWaitDone 0 first ->
    step availablePaths s
      {| pc := PcSleep first; mpathCount := mpathCount s;
         joggers := joggers s; doneCh := doneCh s;
         history := EvWaitDone first :: history s |}
| step_sleep s err :
    pc s = PcSleep err ->
    step availablePaths s
      {| pc := PcClose err; mpathCount := mpathCount s;
         joggers := joggers s; doneCh := doneCh s;
         history := EvSleep 2 :: history s |}
| step_close s err :
    pc s = PcClose err ->
    step availablePaths s
      {| pc := PcUnregRecv err; mpathCount := mpathCount s;
         joggers := joggers s; doneCh := doneCh s;
         history := EvClose :: history s |}
| step_unreg s err :
    pc s = PcUnregRecv err ->
    step availablePaths s
      {| pc := PcFinish err; mpathCount := mpathCount s;
         joggers := joggers s; doneCh := doneCh s;
         history := EvUnregRecv :: history s |}
| step_finish s err :
    pc s = PcFinish err ->
    step availablePaths s
      {| pc := PcReturned err; mpathCount := mpathCount s;
         joggers := joggers s; doneCh := doneCh s;
         history := EvFinish err :: history s |}.

(** The states an execution of [Run] reaches. *)
Definition reachable (availablePaths : list MountpathInfo) (s : Sys) : Prop :=
  rtc (step availablePaths) Sys_init s.

(** The mountpaths of the joggers launched, in the order of launch. *)
Fixpoint launched (h : list RunEvent) : list MountpathInfo :=
  match h with
  | [] => []
  | EvGo mpathInfo :: h' => launched h' ++ [mpathInfo]
  | _ :: h' => launched h'
  end.

(** The number of completion reports. *)
Fixpoint reports (h : list RunEvent) : nat :=
  match h with
  | [] => O
  | EvReport _ _ :: h' => S (reports h')
  | _ :: h' => reports h'
  end.

(** The number of calls of [Finish]. *)
Fixpoint finishes (h : list RunEvent) : nat :=
  match h with
  | [] => O
  | EvFinish _ :: h' => S (finishes h')
  | _ :: h' => finishes h'
  end.

(** Events of the part of [Run] up to the return of [waitDone]. *)
Definition early_event (e : RunEvent) : bool :=
  match e with
  | EvOpen | EvGo _ | EvReport _ _ | EvWaitDone _ => true
  | _ => false
  end.

(** [Run] has left [runJoggers]. *)
Definition joggers_launched (p : Pc) : bool :=
  match p with
  | PcOpen | PcRunJoggers _ => false
  | _ => true
  end.

End RunModel.

(** *** Instances to run the xaction on *)

(** Modelled from the spec: the errors of package cmn, which is not among
    the sources: an error of a collaborator with its text and whether it
    is classified out of space, and the abort error with the job
    it names and its details. *)
Inductive error_model : Type :=
| CollabError (oos : bool) (text : string)
| AbortedError (what details : string).

(** The double quote that [%q] puts around a string free of characters to
    escape. *)
Definition dquote : string := String (ascii_of_nat 34) EmptyString.

#[local] Instance cmn_model : Cmn := {|
  error := error_model;
  IsErrOOS := fun e =>
    match e with CollabError oos _ => oos | AbortedError _ _ => false end;
  ErrorText := fun e =>
    match e with
    | CollabError _ text => text
    | AbortedError w details => w +:+ " aborted: " +:+ details
    end;
  NewAbortedErrorDetails := AbortedError;
  Quote := fun s => dquote +:+ s +:+ dquote;
  throttleNumObjects := 16
|}.

Definition state_model : State :=
  {| objCount := 0; bytesCount := 0; num := 0; buf := None; slabLive := ∅;
     capPolls := O; trace := [] |}.

(** A job whose collaborator copies every object but the ones named
    [skip] (not copied, no error) and [full] (not copied, out of space),
    on a mountpath whose capacity status is [capErr]. *)
Definition job_model (capErr : option error_model) : Job :=
  {| Kind := "copybck"; ID := "x1";
     CopyObject := fun lom _ =>
       if String.eqb (lomName lom) "skip" then (false, None)
       else if String.eqb (lomName lom) "full"
       then (false, Some (CollabError true "no space left on device"))
       else (true, None);
     GetCapStatus := fun _ => capErr |}.


(** An execution of [Run] over two mountpaths to its end: the jogger of
    the second mountpath reports an error first, then the jogger of the
    first reports success. *)
Definition run_model_avail : list string := ["mp1"; "mp2"].

Definition run_model_err : option (@error cmn_model) :=
  Some (AbortedError "copybck" "no space left on device").

Definition run_model_final : @Sys cmn_model string :=
  {| pc := PcReturned run_model_err; mpathCount := 2; joggers := [];
     doneCh := [];
     history := [EvFinish run_model_err; EvUnregRecv; EvClose; EvSleep 2;
                 EvWaitDone run_model_err; EvReport "mp1" None;
                 EvReport "mp2" run_model_err; EvGo "mp2"; EvGo "mp1";
                 EvOpen] |}.

(** ** Vocabulary of the statements *)

#[local] Abbreviation dot := "."%char (only parsing).

(** An int64, as Go has it. *)
Definition int64 (z : Z) : Prop := - 2 ^ 63 <= z < 2 ^ 63.

(** [s] parses as [k] hexadecimal digits of value [v], from any
    accumulator that leaves the result within 64 bits. *)
Definition hexstr (s : string) (k : Z) (v : Z) : Prop :=
  0 <= k /\ 0 <= v /\
  forall n, 0 <= n -> n * 16 ^ k + v <= Go.maxUint64 ->
    Go.ParseUint_loop s n = Some (n * 16 ^ k + v).

(** A path element that [Clean] copies: not empty, not [.] or [..], and
    without a separator. *)
Definition ordinary (e : string) : Prop :=
  e <> "" /\ e <> "." /\ e <> ".." /\ Go.IndexByte e Go.Separator = None.

(** [X] is empty or ends with the separator. *)
Definition dir_like (X : string) : Prop :=
  X = "" \/ exists d, X = d +:+ "/".

(** The inputs on which the resolver [spec] of the process [pid] names a
    file so that [FileSpec] finds the base name again: a last element of
    the object name that is not empty, for the three resolvers that leave
    the name alone; for workfiles, an int64 process id, a tie breaker
    without dot or separator, and a prefix that is not empty and has
    neither. *)
Inductive codec_input (pid : Z) (tie objName prefix : string)
  : ContentResolver -> Prop :=
| codec_object :
    (Go.Split objName).2 <> "" ->
    codec_input pid tie objName prefix ObjectContentResolver
| codec_ecslice :
    (Go.Split objName).2 <> "" ->
    codec_input pid tie objName prefix ECSliceContentResolver
| codec_ecmeta :
    (Go.Split objName).2 <> "" ->
    codec_input pid tie objName prefix ECMetaContentResolver
| codec_workfile :
    int64 pid ->
    Go.IndexByte tie dot = None ->
    Go.IndexByte tie Go.Separator = None ->
    prefix <> "" ->
    Go.IndexByte prefix dot = None ->
    Go.IndexByte prefix Go.Separator = None ->
    codec_input pid tie objName prefix (WorkfileContentResolver pid).

(** [t'] is [t] with more events in front, none of them of the slab. *)
Inductive quiet_ext `{C : Cmn} (t : list Event) : list Event -> Prop :=
| quiet_refl : quiet_ext t t
| quiet_cons e t' :
    is_slab_event e = false -> quiet_ext t t' -> quiet_ext t (e :: t').

(** A step of the jogger that leaves its buffer and the slab alone. *)
Definition quiet `{C : Cmn} (s s' : State) : Prop :=
  quiet_ext (trace s) (trace s')
  /\ buf s' = buf s /\ slabLive s' = slabLive s.

(** The number of objects a jogger has processed: the calls of
    [CopyObject] in its history. *)
Fixpoint processed_count `{C : Cmn} (t : list Event) : nat :=
  match t with
  | [] => O
  | EvCopyObject _ _ :: t' => S (processed_count t')
  | _ :: t' => processed_count t'
  end.

(** The number of objects copied: the calls of [CopyObject] in the history
    that reported [copied]. *)
Fixpoint copied_count `{C : Cmn} (job : Job) (t : list Event) : nat :=
  match t with
  | [] => O
  | EvCopyObject lom b :: t' =>
      if (CopyObject job lom b).1 then S (copied_count job t')
      else copied_count job t'
  | _ :: t' => copied_count job t'
  end.

Section RunVocabulary.
Context `{C : Cmn} {MountpathInfo : Type}.

(** A history of the first part of [Run] in which every jogger of the
    snapshot has been launched and has reported. *)
Definition all_reported (availablePaths : list MountpathInfo)
  (h : list (@RunEvent C MountpathInfo)) : Prop :=
  forallb early_event h = true
  /\ launched h = availablePaths
  /\ reports h = length availablePaths.

(** What holds of the system at each point of [Run]. *)
Definition Run_inv (availablePaths : list MountpathInfo)
  (s : @Sys C MountpathInfo) : Prop :=
  match pc s with
  | PcOpen => history s = [] /\ joggers s = [] /\ doneCh s = []
  | PcRunJoggers rest =>
      forallb early_event (history s) = true
      /\ launched (history s) ++ rest = availablePaths
      /\ mpathCount s = length availablePaths
      /\ (reports (history s) + length (joggers s)
          = length (launched (history s)))%nat
      /\ length (doneCh s) = reports (history s)
  | PcWaitDone awaited _ =>
      forallb early_event (history s) = true
      /\ launched (history s) = availablePaths
      /\ (reports (history s) + length (joggers s)
          = length availablePaths)%nat
      /\ (length (doneCh s) + length availablePaths
          = reports (history s) + awaited)%nat
  | PcSleep _ => joggers s = [] /\ all_reported availablePaths (history s)
  | PcClose _ =>
      joggers s = []
      /\ exists h0, history s = EvSleep 2 :: h0
                    /\ all_reported availablePaths h0
  | PcUnregRecv _ =>
      joggers s = []
      /\ exists h0, history s = EvClose :: EvSleep 2 :: h0
                    /\ all_reported availablePaths h0
  | PcFinish _ =>
      joggers s = []
      /\ exists h0, history s = EvUnregRecv :: EvClose :: EvSleep 2 :: h0
                    /\ all_reported availablePaths h0
  | PcReturned err =>
      joggers s = []
      /\ exists h0, history s
                    = EvFinish err :: EvUnregRecv :: EvClose :: EvSleep 2
                      :: h0
                    /\ all_reported availablePaths h0
  end.

End RunVocabulary.

(** ** More of the code: definitions *)

(** A run of [Reg] calls, as at start-up; the errors are dropped. *)
Fixpoint RegAll (f : contentSpecMgr)
  (regs : list (string * ContentResolver)) : contentSpecMgr :=
  match regs with
  | [] => f
  | (contentType, spec) :: rest =>
      RegAll (CSM.Reg f contentType spec).1 rest
  end.

(** A content type that [Reg] accepts in an empty registry. *)
Definition valid_type (contentType : string) : bool :=
  negb (Go.ContainsRune contentType Go.Separator)
  && (Go.len contentType =? contentTypeLen)%nat.

(** The resolver of the first registration of [contentType] in [regs]. *)
Fixpoint first_reg (regs : list (string * ContentResolver))
  (contentType : string) : option ContentResolver :=
  match regs with
  | [] => None
  | (ct, spec) :: rest =>
      if String.eqb ct contentType then Some spec
      else first_reg rest contentType
  end.

(** A registry that holds no resolvers but the four of fs/content.go, the
    workfile resolver being that of the process [pid]. *)
Definition builtin_registry (pid : Z) (f : contentSpecMgr) : Prop :=
  forall contentType spec,
    m f !! contentType = Some spec ->
    spec = ObjectContentResolver \/ spec = WorkfileContentResolver pid
    \/ spec = ECSliceContentResolver \/ spec = ECMetaContentResolver.

(** The number of occurrences of the byte [c] in [s]. *)
Fixpoint count_byte (s : string) (c : ascii) : nat :=
  match s with
  | EmptyString => O
  | String a s' => ((if Ascii.eqb a c then 1 else 0) + count_byte s' c)%nat
  end.

(** *** 3rdparty/glog/glog_file.go *)

(** [strings.Split(s, sep)] for a one-byte separator. *)
Fixpoint strings_Split (s : string) (sep : ascii) : list string :=
  match s with
  | EmptyString => [EmptyString]
  | String c s' =>
      if Ascii.eqb c sep then EmptyString :: strings_Split s' sep
      else match strings_Split s' sep with
           | e :: es => String c e :: es
           | [] => [String c EmptyString]
           end
  end.

(** [parts[i]]; every use below is within the bounds. *)
Definition part (parts : list string) (i : nat) : string :=
  nth i parts EmptyString.

(** [shortHostname] *)
Definition shortHostname (hostname : string) : string :=
  match Go.IndexByte hostname "." with
  | Some i => Go.slice_to i hostname
  | None =>
      if (Go.len hostname <? 16)%nat
         || match Go.IndexByte hostname "-" with
            | Some _ => false
            | None => true
            end
      then hostname
      else
        let parts := strings_Split hostname "-" in
        if (length parts <? 2)%nat then hostname
        else if negb (String.eqb (part parts 1) "")
                || (length parts =? 2)%nat
        then part parts 0 +:+ "-" +:+ part parts 1
        else part parts 0 +:+ "-" +:+ part parts 2
  end.

(** The length of the parts joined with a one-byte separator, the last
    separator included. *)
Fixpoint joined_len (parts : list string) : nat :=
  match parts with
  | [] => O
  | e :: rest => (Go.len e + 1 + joined_len rest)%nat
  end.

(** *** Histories of the jogger and of [Run] *)

(** The buffers passed to [CopyObject], most recent call first. *)
Fixpoint copy_bufs `{C : Cmn} (t : list Event) : list (option nat) :=
  match t with
  | [] => []
  | EvCopyObject _ b :: t' => b :: copy_bufs t'
  | _ :: t' => copy_bufs t'
  end.

(** The sum of the sizes of the objects. *)
Fixpoint total_size (loms : list LOM) : Z :=
  match loms with
  | [] => 0
  | lom :: rest => Size lom + total_size rest
  end.

Section RunHistories.
Context `{C : Cmn} {MountpathInfo : Type}.

(** The mountpaths whose joggers have reported, in the order of the
    reports. *)
Fixpoint reported (h : list (@RunEvent C MountpathInfo))
  : list MountpathInfo :=
  match h with
  | [] => []
  | EvReport mpathInfo _ :: h' => reported h' ++ [mpathInfo]
  | _ :: h' => reported h'
  end.

(** The errors reported, in the order of the reports. *)
Fixpoint report_errors (h : list (@RunEvent C MountpathInfo))
  : list (option error) :=
  match h with
  | [] => []
  | EvReport _ err :: h' => report_errors h' ++ [err]
  | _ :: h' => report_errors h'
  end.

(** The first error in a list of reports, nil if there is none. *)
Definition first_of (errs : list (option error)) : option error :=
  fold_left first_error errs None.

(** What [waitDone] has received so far, and what the statements after it
    carry as [err]. *)
Definition Run_errors_inv (s : @Sys C MountpathInfo) : Prop :=
  match pc s with
  | PcOpen | PcRunJoggers _ => report_errors (history s) = doneCh s
  | PcWaitDone _ first =>
      exists received,
        report_errors (history s) = received ++ doneCh s
        /\ first = first_of received
  | PcSleep err | PcClose err | PcUnregRecv err | PcFinish err
  | PcReturned err =>
      doneCh s = [] /\ err = first_of (report_errors (history s))
  end.

(** [Open] is the oldest event of a history that is not empty, and occurs
    once. *)
Definition Open_first (s : @Sys C MountpathInfo) : Prop :=
  (pc s = PcOpen /\ history s = [])
  \/ (pc s <> PcOpen
      /\ exists h, history s = h ++ [EvOpen] /\ ~ In EvOpen h).

End RunHistories.


(** * Proofs *)

(** ** Byte strings *)

Lemma append_nil (t : string) : "" +:+ t = t.
Proof. reflexivity. Qed.

Lemma append_cons (a : ascii) (s t : string) :
  String a s +:+ t = String a (s +:+ t).
Proof. reflexivity. Qed.

Lemma append_nil_r (s : string) : s +:+ "" = s.
Proof.
  induction s as [|a s IH]; [reflexivity|].
  rewrite append_cons, IH. reflexivity.
Qed.

Lemma append_assoc (s t u : string) : (s +:+ t) +:+ u = s +:+ t +:+ u.
Proof.
  induction s as [|a s IH]; [reflexivity|].
  rewrite !append_cons, IH. reflexivity.
Qed.

Lemma len_append (s t : string) : Go.len (s +:+ t) = (Go.len s + Go.len t)%nat.
Proof.
  unfold Go.len. induction s as [|a s IH]; [reflexivity|].
  rewrite append_cons. simpl. rewrite IH. reflexivity.
Qed.

Lemma slice_from_append (s t : string) : Go.slice_from (Go.len s) (s +:+ t) = t.
Proof.
  induction s as [|a s IH]; [reflexivity|].
  rewrite append_cons. simpl. exact IH.
Qed.

Lemma slice_to_append (s t : string) : Go.slice_to (Go.len s) (s +:+ t) = s.
Proof.
  induction s as [|a s IH]; [reflexivity|].
  rewrite append_cons. simpl. rewrite IH. reflexivity.
Qed.

Lemma slice_from_append_lt (n : nat) (s t : string) :
  (n <= Go.len s)%nat ->
  Go.slice_from n (s +:+ t) = Go.slice_from n s +:+ t.
Proof.
  revert s. induction n as [|n IH]; intros s Hn; [reflexivity|].
  destruct s as [|a s]; simpl in Hn; [lia|].
  rewrite append_cons. simpl. apply IH. unfold Go.len in *. lia.
Qed.

Lemma slice_to_from (n : nat) (s : string) :
  Go.slice_to n s +:+ Go.slice_from n s = s.
Proof.
  revert s. induction n as [|n IH]; intros s; [reflexivity|].
  destruct s as [|a s]; [reflexivity|].
  simpl. rewrite append_cons, IH. reflexivity.
Qed.

Lemma IndexByte_cons (a : ascii) (s : string) (c : ascii) :
  Go.IndexByte (String a s) c =
    if Ascii.eqb a c then Some O else option_map S (Go.IndexByte s c).
Proof. reflexivity. Qed.

Lemma IndexByte_lt (s : string) (c : ascii) (i : nat) :
  Go.IndexByte s c = Some i -> (i < Go.len s)%nat.
Proof.
  unfold Go.len. revert i. induction s as [|a s IH]; intros i; simpl; [discriminate|].
  destruct (Ascii.eqb a c).
  - intros [= <-]. lia.
  - destruct (Go.IndexByte s c) as [j|]; simpl; [|discriminate].
    intros [= <-]. specialize (IH j eq_refl). lia.
Qed.

Lemma IndexByte_append_Some (s t : string) (c : ascii) (i : nat) :
  Go.IndexByte s c = Some i -> Go.IndexByte (s +:+ t) c = Some i.
Proof.
  revert i. induction s as [|a s IH]; intros i; simpl; [discriminate|].
  rewrite ?append_cons. simpl. destruct (Ascii.eqb a c); [auto|].
  destruct (Go.IndexByte s c) as [j|]; simpl; [|discriminate].
  intros [= <-]. rewrite (IH j eq_refl). reflexivity.
Qed.

Lemma IndexByte_append_None (s t : string) (c : ascii) :
  Go.IndexByte s c = None ->
  Go.IndexByte (s +:+ t) c =
    option_map (fun i => (Go.len s + i)%nat) (Go.IndexByte t c).
Proof.
  induction s as [|a s IH]; simpl.
  - intros _. rewrite append_nil. destruct (Go.IndexByte t c); reflexivity.
  - rewrite ?append_cons. simpl. destruct (Ascii.eqb a c); [discriminate|].
    destruct (Go.IndexByte s c) as [j|] eqn:E; simpl; [discriminate|].
    intros _. rewrite (IH eq_refl).
    destruct (Go.IndexByte t c); reflexivity.
Qed.

Lemma LastIndexByte_None (s : string) (c : ascii) :
  Go.LastIndexByte s c = None <-> Go.IndexByte s c = None.
Proof.
  induction s as [|a s IH]; simpl; [tauto|].
  destruct (Go.LastIndexByte s c) as [j|], (Go.IndexByte s c) as [k|],
    (Ascii.eqb a c); simpl; split; intros H; try discriminate;
    try reflexivity.
  - destruct IH as [_ IH]. discriminate (IH eq_refl).
  - destruct IH as [IH _]. discriminate (IH eq_refl).
Qed.

Lemma LastIndexByte_append_Some (s t : string) (c : ascii) (i : nat) :
  Go.LastIndexByte t c = Some i ->
  Go.LastIndexByte (s +:+ t) c = Some (Go.len s + i)%nat.
Proof.
  intros Ht. induction s as [|a s IH]; [exact Ht|].
  rewrite ?append_cons. simpl. rewrite IH. reflexivity.
Qed.

Lemma LastIndexByte_append_None (s t : string) (c : ascii) :
  Go.LastIndexByte t c = None ->
  Go.LastIndexByte (s +:+ t) c = Go.LastIndexByte s c.
Proof.
  intros Ht. induction s as [|a s IH]; [exact Ht|].
  rewrite ?append_cons. simpl. rewrite IH. reflexivity.
Qed.

(** The last occurrence of [c] in [s + c + t], when [t] is free of it. *)
Lemma LastIndexByte_sep (s t : string) (c : ascii) :
  Go.IndexByte t c = None ->
  Go.LastIndexByte (s +:+ String c t) c = Some (Go.len s).
Proof.
  intros Ht.
  rewrite (LastIndexByte_append_Some s (String c t) c 0).
  - f_equal. lia.
  - simpl. apply LastIndexByte_None in Ht. rewrite Ht.
    rewrite Ascii.eqb_refl. reflexivity.
Qed.

Lemma Split_sep (d f : string) :
  Go.IndexByte f Go.Separator = None ->
  Go.Split (d +:+ String Go.Separator f) = (d +:+ "/", f).
Proof.
  intros Hf. unfold Go.Split. rewrite (LastIndexByte_sep d f _ Hf).
  change (String Go.Separator f) with ("/" +:+ f).
  rewrite <- append_assoc.
  replace (S (Go.len d)) with (Go.len (d +:+ "/"))
    by (rewrite len_append; simpl; lia).
  rewrite slice_to_append, slice_from_append. reflexivity.
Qed.

Lemma Split_no_sep (f : string) :
  Go.IndexByte f Go.Separator = None -> Go.Split f = ("", f).
Proof.
  intros Hf. unfold Go.Split. apply LastIndexByte_None in Hf.
  rewrite Hf. reflexivity.
Qed.

Lemma LastIndexByte_after (s : string) (c : ascii) (i : nat) :
  Go.LastIndexByte s c = Some i ->
  Go.IndexByte (Go.slice_from (S i) s) c = None.
Proof.
  revert i. induction s as [|a s IH]; intros i; simpl; [discriminate|].
  destruct (Go.LastIndexByte s c) as [j|] eqn:E.
  - intros [= <-]. apply IH. reflexivity.
  - destruct (Ascii.eqb a c); [|discriminate].
    intros [= <-]. simpl. apply LastIndexByte_None. exact E.
Qed.

(** [Split] cuts the path in two; the file part has no separator and the
    directory part is empty or ends with one. *)
Lemma Split_spec (path : string) :
  (Go.Split path).1 +:+ (Go.Split path).2 = path
  /\ Go.IndexByte (Go.Split path).2 Go.Separator = None
  /\ ((Go.Split path).1 = ""
      \/ exists d, (Go.Split path).1 = d +:+ "/").
Proof.
  unfold Go.Split.
  destruct (Go.LastIndexByte path Go.Separator) as [i|] eqn:E; cbn [fst snd].
  - split; [apply slice_to_from|].
    split; [apply (LastIndexByte_after _ _ _ E)|].
    right. clear -E. revert i E.
    induction path as [|a p IH]; intros i; simpl; [discriminate|].
    destruct (Go.LastIndexByte p Go.Separator) as [j|] eqn:Ep.
    + intros [= <-]. destruct (IH j eq_refl) as [d Hd].
      exists (String a d). simpl in Hd. rewrite append_cons.
      simpl. rewrite Hd. reflexivity.
    + destruct (Ascii.eqb a Go.Separator) eqn:Ea; [|discriminate].
      intros [= <-]. apply Ascii.eqb_eq in Ea. subst a.
      exists "". reflexivity.
  - split; [reflexivity|]. split; [|left; reflexivity].
    apply LastIndexByte_None. exact E.
Qed.

(** The path functions on the cases of their documentation. *)
Example Clean_examples :
  map Go.Clean
    ["abc"; "abc/def"; "."; ".."; "../.."; "/abc"; "/"; ""; "abc/";
     "abc//def//ghi"; "//abc"; "abc/./def"; "abc/."; "abc/def/..";
     "abc/def/../.."; "/abc/def/../.."; "abc/def/../../..";
     "/abc/def/../../.."; "abc/def/../../../ghi/jkl/../../../mno";
     "/../abc"; "abc/./../def"; "abc/../../././../def"]
  = ["abc"; "abc/def"; "."; ".."; "../.."; "/abc"; "/"; "."; "abc";
     "abc/def/ghi"; "/abc"; "abc/def"; "abc"; "abc";
     "."; "/"; "..";
     "/"; "../../mno";
     "/abc"; "def"; "../../def"].
Proof. reflexivity. Qed.

Example Split_Join_examples :
  Go.Split "a/b/c.txt" = ("a/b/", "c.txt")
  /\ Go.Split "c.txt" = ("", "c.txt")
  /\ Go.Split "a/" = ("a/", "")
  /\ Go.Join "a/b/" "put.c.txt" = "a/b/put.c.txt"
  /\ Go.Join "" "put.c.txt" = "put.c.txt"
  /\ Go.Join "a/" "." = "a"
  /\ Go.Join "a" "" = "a"
  /\ Go.Join "" "" = "".
Proof. repeat split. Qed.

Example strconv_examples :
  Go.FormatInt16 4242 = "1092"
  /\ Go.FormatInt16 (-255) = "-ff"
  /\ Go.FormatInt16 (2 ^ 63 - 1) = "7fffffffffffffff"
  /\ Go.ParseInt16 "1092" = Some 4242
  /\ Go.ParseInt16 "DEADBEEF" = Some 3735928559
  /\ Go.ParseInt16 "-8000000000000000" = Some (- 2 ^ 63)
  /\ Go.ParseInt16 "8000000000000000" = None
  /\ Go.ParseInt16 "" = None
  /\ Go.ParseInt16 "12g" = None
  /\ Go.ParseInt16 "1_0" = None.
Proof. repeat split. Qed.

(** ** Hexadecimal process ids *)

Ltac hex_cases d :=
  let H := fresh in
  assert (H : d = 0 \/ d = 1 \/ d = 2 \/ d = 3 \/ d = 4 \/ d = 5 \/ d = 6
              \/ d = 7 \/ d = 8 \/ d = 9 \/ d = 10 \/ d = 11 \/ d = 12
              \/ d = 13 \/ d = 14 \/ d = 15) by lia;
  repeat (destruct H as [H|H]; [subst d|]); [..|subst d].

Lemma digit_val_hex_digit (d : Z) :
  0 <= d < 16 -> Go.digit_val (Go.hex_digit d) = Some d.
Proof. intros Hd. hex_cases d; reflexivity. Qed.

Lemma hex_digit_neq (d : Z) (c : ascii) :
  0 <= d < 16 -> Go.digit_val c = None -> Ascii.eqb (Go.hex_digit d) c = false.
Proof.
  intros Hd Hc. apply Ascii.eqb_neq. intros <-.
  rewrite (digit_val_hex_digit d Hd) in Hc. discriminate.
Qed.

Lemma hexstr_nil : hexstr "" 0 0.
Proof.
  split; [lia|]. split; [lia|]. intros n _ _. simpl. f_equal. lia.
Qed.

Lemma hexstr_cons (acc : string) (k v d : Z) :
  hexstr acc k v -> 0 <= d < 16 ->
  hexstr (String (Go.hex_digit d) acc) (k + 1) (d * 16 ^ k + v).
Proof.
  intros (Hk & Hv & Hacc) Hd.
  assert (Hpow : 0 < 16 ^ k) by (apply Z.pow_pos_nonneg; lia).
  split; [lia|]. split; [nia|].
  intros n Hn Hmax. rewrite Z.pow_add_r in Hmax by lia.
  change (16 ^ 1) with 16 in Hmax.
  simpl. rewrite (digit_val_hex_digit d Hd).
  assert (Hn1 : n * 16 + d <= Go.maxUint64) by nia.
  unfold Go.maxUint64 in *.
  destruct (16 <=? d) eqn:E1; [apply Z.leb_le in E1; lia|].
  destruct ((2 ^ 64 - 1) / 16 + 1 <=? n) eqn:E2.
  { apply Z.leb_le in E2. change ((2 ^ 64 - 1) / 16 + 1) with (2 ^ 60) in E2.
    change (2 ^ 64) with (2 ^ 60 * 16) in Hn1. lia. }
  destruct (2 ^ 64 - 1 <? n * 16 + d) eqn:E3; [apply Z.ltb_lt in E3; lia|].
  rewrite Hacc by nia. f_equal. rewrite Z.pow_add_r by lia.
  change (16 ^ 1) with 16. ring.
Qed.

Lemma hexstr_hex_digits (fuel : nat) (u : Z) (acc : string) (k v : Z) :
  hexstr acc k v -> 0 <= u < 16 ^ Z.of_nat fuel ->
  exists k', hexstr (Go.hex_digits fuel u acc) k' (u * 16 ^ k + v).
Proof.
  revert u acc k v. induction fuel as [|fuel IH]; intros u acc k v Hacc Hu.
  - simpl in *. assert (u = 0) by lia. subst u. exists k.
    replace (0 * 16 ^ k + v) with v by lia. exact Hacc.
  - rewrite Nat2Z.inj_succ, Z.pow_succ_r in Hu by lia.
    assert (Hm : 0 <= u mod 16 < 16) by (apply Z.mod_pos_bound; lia).
    pose proof (Z.div_mod u 16 ltac:(lia)) as Hdm.
    pose proof (hexstr_cons acc k v (u mod 16) Hacc Hm) as Hacc'.
    simpl. destruct (u / 16 =? 0) eqn:E.
    + apply Z.eqb_eq in E. exists (k + 1).
      replace (u * 16 ^ k + v) with (u mod 16 * 16 ^ k + v); [exact Hacc'|].
      f_equal. f_equal. lia.
    + destruct (IH (u / 16) _ _ _ Hacc') as [k' Hk'].
      { split; [apply Z.div_pos; lia|].
        apply Z.div_lt_upper_bound; lia. }
      exists k'.
      replace (u * 16 ^ k + v)
        with (u / 16 * 16 ^ (k + 1) + (u mod 16 * 16 ^ k + v));
        [exact Hk'|].
      destruct Hacc as [Hk _]. rewrite Z.pow_add_r by lia.
      change (16 ^ 1) with 16.
      rewrite Hdm at 3. ring.
Qed.

Lemma hex_digits_head (fuel : nat) (u : Z) (acc : string) :
  exists d r, 0 <= d < 16
    /\ Go.hex_digits (S fuel) u acc = String (Go.hex_digit d) r.
Proof.
  revert u acc. induction fuel as [|fuel IH]; intros u acc.
  - exists (u mod 16), acc. split; [apply Z.mod_pos_bound; lia|].
    simpl. destruct (u / 16 =? 0); reflexivity.
  - change (Go.hex_digits (S (S fuel)) u acc)
      with (if u / 16 =? 0 then String (Go.hex_digit (u mod 16)) acc
            else Go.hex_digits (S fuel) (u / 16)
                   (String (Go.hex_digit (u mod 16)) acc)).
    destruct (u / 16 =? 0).
    + exists (u mod 16), acc. split; [apply Z.mod_pos_bound; lia|reflexivity].
    + apply IH.
Qed.

Lemma hex_digits_free (fuel : nat) (u : Z) (acc : string) (c : ascii) :
  Go.digit_val c = None -> Go.IndexByte acc c = None ->
  Go.IndexByte (Go.hex_digits fuel u acc) c = None.
Proof.
  intros Hc. revert u acc. induction fuel as [|fuel IH]; intros u acc Hacc.
  - exact Hacc.
  - assert (Hacc' : Go.IndexByte (String (Go.hex_digit (u mod 16)) acc) c
                    = None).
    { simpl. rewrite hex_digit_neq, Hacc; auto.
      apply Z.mod_pos_bound. lia. }
    simpl. destruct (u / 16 =? 0); [exact Hacc'|]. apply IH. exact Hacc'.
Qed.

Lemma ParseUint16_hex_digits (u : Z) :
  0 <= u <= 2 ^ 63 ->
  Go.ParseUint16 (Go.hex_digits 16 u "") = Some u.
Proof.
  intros Hu.
  destruct (hexstr_hex_digits 16 u "" 0 0 hexstr_nil) as [k (_ & _ & Hk)].
  { change (16 ^ Z.of_nat 16) with (2 ^ 64). lia. }
  destruct (hex_digits_head 15 u "") as (d & r & _ & Hr).
  unfold Go.ParseUint16. rewrite Hr. rewrite <- Hr.
  rewrite (Hk 0); unfold Go.maxUint64; [f_equal; lia|lia|].
  change (16 ^ 0) with 1. lia.
Qed.

(** [ParseInt] reads back what [FormatInt] writes. *)
Lemma ParseInt16_FormatInt16 (p : Z) :
  int64 p -> Go.ParseInt16 (Go.FormatInt16 p) = Some p.
Proof.
  unfold int64. intros Hp. unfold Go.FormatInt16.
  destruct (p <? 0) eqn:E.
  - apply Z.ltb_lt in E. unfold Go.ParseInt16.
    change (Ascii.eqb "-" "-") with true. change (Ascii.eqb "-" "+") with false.
    cbv [orb negb andb].
    rewrite ParseUint16_hex_digits by lia.
    destruct (2 ^ 63 <? - p) eqn:E2; [apply Z.ltb_lt in E2; lia|].
    f_equal. lia.
  - apply Z.ltb_ge in E.
    destruct (hex_digits_head 15 p "") as (d & r & Hd & Hr).
    unfold Go.ParseInt16. rewrite Hr.
    rewrite !(hex_digit_neq d) by (auto; reflexivity).
    cbv [orb negb andb]. rewrite <- Hr.
    rewrite ParseUint16_hex_digits by lia.
    destruct (2 ^ 63 <=? p) eqn:E2; [apply Z.leb_le in E2; lia|].
    reflexivity.
Qed.

Lemma FormatInt16_free (p : Z) (c : ascii) :
  Go.digit_val c = None -> c <> "-"%char ->
  Go.IndexByte (Go.FormatInt16 p) c = None.
Proof.
  intros Hc Hm. unfold Go.FormatInt16. destruct (p <? 0).
  - rewrite IndexByte_cons. apply Ascii.eqb_neq in Hm.
    rewrite Ascii.eqb_sym, Hm. rewrite hex_digits_free; auto.
  - apply hex_digits_free; auto.
Qed.

(** ** Cleaning a path keeps an ordinary last element *)

Lemma elements_nonempty (p : string) : Go.elements p <> [].
Proof.
  destruct p as [|c p]; simpl; [discriminate|].
  destruct (Ascii.eqb c Go.Separator); [discriminate|].
  destruct (Go.elements p); discriminate.
Qed.

Lemma elements_sep (a b : string) :
  Go.elements (a +:+ String Go.Separator b) = Go.elements a ++ Go.elements b.
Proof.
  induction a as [|c a IH].
  - reflexivity.
  - rewrite append_cons. simpl. rewrite IH.
    destruct (Ascii.eqb c Go.Separator); [reflexivity|].
    pose proof (elements_nonempty a) as Hne.
    destruct (Go.elements a) as [|e0 es0]; [congruence|]. reflexivity.
Qed.

Lemma elements_no_sep (e : string) :
  Go.IndexByte e Go.Separator = None -> Go.elements e = [e].
Proof.
  induction e as [|c e IH]; [reflexivity|].
  rewrite IndexByte_cons. simpl.
  destruct (Ascii.eqb c Go.Separator); [discriminate|].
  destruct (Go.IndexByte e Go.Separator); [discriminate|].
  intros _. rewrite IH; reflexivity.
Qed.

Lemma clean_step_ordinary (rooted : bool) (out : list string) (e : string) :
  ordinary e -> Go.clean_step rooted out e = e :: out.
Proof.
  intros (H0 & H1 & H2 & _). unfold Go.clean_step.
  apply String.eqb_neq in H0, H1, H2. rewrite H0, H1, H2. reflexivity.
Qed.

Lemma join_sep_snoc (l : list string) (e : string) :
  exists X, Go.join_sep (l ++ [e]) = X +:+ e /\ dir_like X.
Proof.
  induction l as [|a l IH].
  - exists "". split; [reflexivity|left; reflexivity].
  - destruct IH as (X & HX & HXd). destruct l as [|b l].
    + exists (a +:+ "/"). split; [|right; eexists; reflexivity].
      simpl. rewrite append_assoc. reflexivity.
    + exists (a +:+ "/" +:+ X). split.
      * change (Go.join_sep ((a :: b :: l) ++ [e]))
          with (a +:+ "/" +:+ Go.join_sep ((b :: l) ++ [e])).
        rewrite HX, !append_assoc. reflexivity.
      * right. destruct HXd as [->|[d ->]].
        -- exists a. rewrite append_nil_r. reflexivity.
        -- exists (a +:+ "/" +:+ d). rewrite !append_assoc. reflexivity.
Qed.

Lemma append_nonempty_r (X e : string) : e <> "" -> X +:+ e <> "".
Proof.
  intros He. destruct X; [exact He|]. rewrite append_cons. discriminate.
Qed.

Lemma Clean_keeps_last (d e : string) :
  ordinary e ->
  exists X, Go.Clean (d +:+ String Go.Separator e) = X +:+ e /\ dir_like X.
Proof.
  intros He. unfold Go.Clean.
  rewrite elements_sep, fold_left_app.
  rewrite (elements_no_sep e) by apply He.
  cbn [fold_left]. rewrite clean_step_ordinary by exact He.
  cbn [rev]. change (@rev string) with (@List.rev string).
  set (st := List.rev _).
  destruct (join_sep_snoc st e) as (X & HX & HXd). rewrite HX.
  destruct (Go.is_rooted _).
  - exists ("/" +:+ X). split; [rewrite append_assoc; reflexivity|].
    right. destruct HXd as [->|[d' ->]].
    + exists "". reflexivity.
    + exists ("/" +:+ d'). rewrite append_assoc. reflexivity.
  - exists X. split; [|exact HXd].
    destruct (String.eqb_spec (X +:+ e) "") as [Hc|_]; [|reflexivity].
    exfalso. revert Hc. apply append_nonempty_r. apply He.
Qed.

Lemma Clean_ordinary (e : string) : ordinary e -> Go.Clean e = e.
Proof.
  intros He. unfold Go.Clean.
  rewrite (elements_no_sep e) by apply He.
  cbn [fold_left]. rewrite clean_step_ordinary by exact He.
  destruct He as (H0 & _ & _ & Hs).
  destruct e as [|c e]; [congruence|].
  rewrite IndexByte_cons in Hs. simpl.
  destruct (Ascii.eqb c Go.Separator); [discriminate|]. reflexivity.
Qed.

Lemma Join_keeps_last (d e : string) :
  ordinary e -> exists X, Go.Join d e = X +:+ e /\ dir_like X.
Proof.
  intros He. unfold Go.Join.
  destruct (String.eqb_spec d "") as [->|Hd]; cbn [negb].
  - destruct (String.eqb_spec e "") as [->|_]; cbn [negb].
    + destruct He as [He _]. congruence.
    + exists "". rewrite Clean_ordinary by exact He.
      split; [reflexivity|left; reflexivity].
  - change (d +:+ "/" +:+ e) with (d +:+ String Go.Separator e).
    apply Clean_keeps_last. exact He.
Qed.

Lemma Split_dir_like (X e : string) :
  dir_like X -> Go.IndexByte e Go.Separator = None ->
  Go.Split (X +:+ e) = (X, e).
Proof.
  intros [->|[d ->]] He.
  - rewrite append_nil. apply Split_no_sep. exact He.
  - rewrite append_assoc. apply Split_sep. exact He.
Qed.

(** ** Workfile names *)

Lemma slice_from_sep (a b : string) (c : ascii) :
  Go.slice_from (Go.len a + 1) (a +:+ String c b) = b.
Proof.
  replace (Go.len a + 1)%nat with (Go.len (a +:+ String c ""))
    by (rewrite len_append; reflexivity).
  change (String c b) with (String c "" +:+ b).
  rewrite <- append_assoc. apply slice_from_append.
Qed.

Lemma spid_free (pid : Z) (c : ascii) :
  Go.digit_val c = None -> c <> "-"%char ->
  Go.IndexByte (spid pid) c = None.
Proof. apply FormatInt16_free. Qed.

(** What [ParseUniqueFQN] makes of a name that ends with a tie breaker
    and the id of the process [P1]: the part between the first dot and the
    tie breaker, if there is a dot before the tie breaker. *)
Lemma Workfile_Parse_name (P1 P2 : Z) (tie J : string) :
  int64 P1 -> Go.IndexByte tie dot = None ->
  Workfile_ParseUniqueFQN P2 (J +:+ "." +:+ tie +:+ "." +:+ spid P1) =
    match Go.IndexByte J dot with
    | Some i => (Go.slice_from (i + 1) J, negb (P1 =? P2), true)
    | None => ("", false, false)
    end.
Proof.
  intros HP Htie. unfold Workfile_ParseUniqueFQN.
  assert (Hspid : Go.IndexByte (spid P1) dot = None)
    by (apply spid_free; [reflexivity|discriminate]).
  destruct (Go.IndexByte J dot) as [i|] eqn:EJ.
  - rewrite (IndexByte_append_Some _ _ _ _ EJ).
    cbv zeta.
    rewrite slice_from_append_lt
      by (apply IndexByte_lt in EJ; lia).
    set (R := Go.slice_from (i + 1) J).
    change ("." +:+ tie +:+ "." +:+ spid P1)
      with (String dot (tie +:+ String dot (spid P1))).
    replace (R +:+ String dot (tie +:+ String dot (spid P1)))
      with ((R +:+ String dot tie) +:+ String dot (spid P1))
      by (rewrite append_assoc; reflexivity).
    rewrite (LastIndexByte_sep _ _ _ Hspid).
    rewrite slice_to_append, (LastIndexByte_sep _ _ _ Htie).
    rewrite slice_from_sep.
    unfold spid at 1. rewrite (ParseInt16_FormatInt16 _ HP).
    rewrite append_assoc, slice_to_append. reflexivity.
  - rewrite (IndexByte_append_None _ _ _ EJ).
    change ("." +:+ tie +:+ "." +:+ spid P1)
      with (String dot (tie +:+ String dot (spid P1))).
    rewrite IndexByte_cons, Ascii.eqb_refl. cbn [option_map]. cbv zeta.
    replace (Go.len J + 0 + 1)%nat with (Go.len J + 1)%nat by lia.
    rewrite slice_from_sep.
    rewrite (LastIndexByte_sep _ _ _ Hspid).
    rewrite slice_to_append.
    apply LastIndexByte_None in Htie. rewrite Htie. reflexivity.
Qed.

(** The file name that [GenUniqueFQN] puts in front of the tie breaker
    starts with the prefix and a dot. *)
Lemma prefixed_name (prefix fname : string) :
  Go.IndexByte prefix dot = None ->
  Go.IndexByte (prefix +:+ "." +:+ fname) dot = Some (Go.len prefix)
  /\ Go.slice_from (Go.len prefix + 1) (prefix +:+ "." +:+ fname) = fname.
Proof.
  intros Hp. split.
  - rewrite (IndexByte_append_None _ _ _ Hp).
    change ("." +:+ fname) with (String dot fname).
    rewrite IndexByte_cons, Ascii.eqb_refl. cbn [option_map].
    f_equal. lia.
  - apply slice_from_sep.
Qed.

Lemma prefixed_ordinary (prefix fname : string) :
  prefix <> "" -> prefix <> "." ->
  Go.IndexByte prefix Go.Separator = None ->
  Go.IndexByte fname Go.Separator = None ->
  ordinary (prefix +:+ "." +:+ fname).
Proof.
  intros Hne Hd Hs Hf.
  destruct prefix as [|c prefix]; [congruence|].
  assert (Hrest : prefix +:+ "." +:+ fname <> "")
    by (apply append_nonempty_r; discriminate).
  repeat split.
  - rewrite append_cons. discriminate.
  - rewrite append_cons. intros [= -> Hc]. contradiction.
  - rewrite append_cons. intros [= -> Hc].
    destruct prefix as [|c' prefix]; [congruence|].
    rewrite append_cons in Hc. injection Hc as _ Hc.
    revert Hc. apply append_nonempty_r. discriminate.
  - rewrite (IndexByte_append_None _ _ _ Hs).
    change ("." +:+ fname) with (String dot fname).
    rewrite IndexByte_cons. change (Ascii.eqb dot Go.Separator) with false.
    rewrite Hf. reflexivity.
Qed.

Lemma dot_free_not_dot (prefix : string) :
  Go.IndexByte prefix dot = None -> prefix <> ".".
Proof. intros H ->. discriminate H. Qed.

Lemma ContainsRune_append_r (a b : string) (c : ascii) :
  Go.ContainsRune b c = true -> Go.ContainsRune (a +:+ b) c = true.
Proof.
  unfold Go.ContainsRune. intros Hb.
  destruct (Go.IndexByte a c) as [i|] eqn:Ea.
  - rewrite (IndexByte_append_Some _ _ _ _ Ea). reflexivity.
  - rewrite (IndexByte_append_None _ _ _ Ea).
    destruct (Go.IndexByte b c); [reflexivity|discriminate].
Qed.

(** With a prefix that is a path element of its own, the name that
    [GenUniqueFQN] joins keeps the dot after the prefix. *)
Lemma Workfile_join_keeps_dot (base prefix : string) :
  prefix <> "" -> prefix <> "." ->
  Go.IndexByte prefix Go.Separator = None ->
  Go.ContainsRune
    (Go.Join (Go.Split base).1 (prefix +:+ "." +:+ (Go.Split base).2)) dot
  = true.
Proof.
  intros Hne Hd Hs.
  destruct (Split_spec base) as (_ & Hf & _).
  pose proof (prefixed_ordinary prefix _ Hne Hd Hs Hf) as He.
  destruct (Join_keeps_last (Go.Split base).1 _ He) as (X & -> & _).
  apply ContainsRune_append_r, ContainsRune_append_r. reflexivity.
Qed.

Lemma IndexByte_append_free (a b : string) (c : ascii) :
  Go.IndexByte a c = None -> Go.IndexByte b c = None ->
  Go.IndexByte (a +:+ b) c = None.
Proof.
  intros Ha Hb. rewrite (IndexByte_append_None _ _ _ Ha), Hb. reflexivity.
Qed.

Lemma HasSuffix_sep (d : string) : Go.HasSuffix (d +:+ "/") "/" = true.
Proof.
  unfold Go.HasSuffix. rewrite len_append.
  change (Go.len "/") with 1%nat.
  replace (Go.len d + 1 - 1)%nat with (Go.len d) by lia.
  rewrite slice_from_append. apply andb_true_intro. split.
  - apply Nat.leb_le. lia.
  - reflexivity.
Qed.

Lemma dir_like_append (D X : string) : dir_like X -> dir_like (D +:+ "/" +:+ X).
Proof.
  intros [->|[d ->]]; right.
  - exists D. rewrite append_nil_r. reflexivity.
  - exists (D +:+ "/" +:+ d). rewrite !append_assoc. reflexivity.
Qed.

(** ** The content registry and the FQN codec *)

Section Codec.
Context `{L : FQNLayout}.

(** [FileSpec] on a path under [D]: with a unique name [X + b] whose last
    element [b] the resolver parses, the result is the resolver and the
    information parsed. *)
Lemma FileSpec_under (f : contentSpecMgr) (D X b : string)
  (p : ParsedFQN) (spec : ContentResolver) (orig : string) (old : bool) :
  dir_like X -> Go.IndexByte b Go.Separator = None -> b <> "" ->
  ParseFQN (D +:+ "/" +:+ X +:+ b) = Some p ->
  m f !! ContentType p = Some spec ->
  ParseUniqueFQN spec b = (orig, old, true) ->
  Go.Split (D +:+ "/" +:+ X +:+ b) = (D +:+ "/" +:+ X, b)
  /\ CSM.FileSpec f (D +:+ "/" +:+ X +:+ b) =
       (Some spec,
        Some {| Dir := D +:+ "/" +:+ X; Base := orig; Old := old;
                CType := ContentType p |}).
Proof.
  intros HX Hb Hne Hp Hm Hu.
  assert (HS : Go.Split (D +:+ "/" +:+ X +:+ b) = (D +:+ "/" +:+ X, b)).
  { rewrite <- (Split_dir_like (D +:+ "/" +:+ X) b);
      [rewrite !append_assoc; reflexivity|apply dir_like_append; exact HX
      |exact Hb]. }
  split; [exact HS|].
  unfold CSM.FileSpec. rewrite HS.
  assert (HSuf : Go.HasSuffix (D +:+ "/" +:+ X) "/" = true).
  { destruct (dir_like_append D X HX) as [Hc|[d ->]].
    - destruct D; discriminate Hc.
    - apply HasSuffix_sep. }
  rewrite HSuf. apply String.eqb_neq in Hne. rewrite Hne.
  cbn [negb orb]. rewrite Hp, Hm, Hu. reflexivity.
Qed.

(** [FileSpec] returns nothing on a path it cannot split, that
    [ParseFQN] rejects, or whose content type is not registered. *)
Lemma FileSpec_absent (f : contentSpecMgr) (fqn : string) :
  Go.HasSuffix (Go.Split fqn).1 "/" = false
  \/ (Go.Split fqn).2 = ""
  \/ ParseFQN fqn = None
  \/ (exists p, ParseFQN fqn = Some p /\ m f !! ContentType p = None) ->
  CSM.FileSpec f fqn = (None, None).
Proof.
  intros H. unfold CSM.FileSpec.
  destruct (Go.Split fqn) as [dir base]; cbn [fst snd] in H.
  destruct H as [H|[H|[H|(p & Hp & Hm)]]].
  - rewrite H. reflexivity.
  - rewrite H. rewrite orb_true_r. reflexivity.
  - rewrite H. destruct (_ || _); reflexivity.
  - rewrite Hp, Hm. destruct (_ || _); reflexivity.
Qed.

(** [FileSpec] returns a resolver and an information, or neither. *)
Lemma FileSpec_both_or_neither (f : contentSpecMgr) (fqn : string) :
  CSM.FileSpec f fqn = (None, None)
  \/ exists spec info, CSM.FileSpec f fqn = (Some spec, Some info).
Proof.
  unfold CSM.FileSpec. destruct (Go.Split fqn) as [dir base].
  destruct (_ || _); [left; reflexivity|].
  destruct (ParseFQN fqn) as [p|]; [|left; reflexivity].
  destruct (m f !! ContentType p) as [spec|]; [|left; reflexivity].
  destruct (ParseUniqueFQN spec base) as [[orig old] ok].
  destruct ok; cbn [negb]; [right; eauto|left; reflexivity].
Qed.

(** With a resolver that leaves names alone, the base that [FileSpec]
    returns is the last element of the path: it has no separator, whatever
    the layout of the FQN. *)
Lemma FileSpec_identity_Base (f : contentSpecMgr) (fqn : string)
  (spec : ContentResolver) (info : ContentInfo) :
  (forall b, ParseUniqueFQN spec b = (b, false, true)) ->
  CSM.FileSpec f fqn = (Some spec, Some info) ->
  Base info = (Go.Split fqn).2
  /\ Go.IndexByte (Base info) Go.Separator = None.
Proof.
  intros Hid. unfold CSM.FileSpec.
  destruct (Split_spec fqn) as (_ & Hfree & _).
  destruct (Go.Split fqn) as [dir base]; cbn [fst snd] in *.
  destruct (_ || _); [discriminate|].
  destruct (ParseFQN fqn) as [p|]; [|discriminate].
  destruct (m f !! ContentType p) as [spec'|]; [|discriminate].
  destruct (ParseUniqueFQN spec' base) as [[orig old] ok] eqn:Eu.
  destruct ok; cbn [negb]; [|discriminate].
  intros [= -> <-]. rewrite Hid in Eu. injection Eu as <- _.
  cbn [Base]. split; [reflexivity|exact Hfree].
Qed.

(** C5.  [Reg] returns an error, and leaves the registry as it is, for a
    content type whose length is not 2, that contains the path separator,
    or that is registered already; for every other content type it
    returns no error and adds the resolver, after which registering the
    same content type again returns an error. *)
Theorem Reg_fails_or_registers_once (f : contentSpecMgr)
  (contentType : string) (spec spec' : ContentResolver) :
  ((Go.len contentType <> contentTypeLen
    \/ Go.ContainsRune contentType Go.Separator = true
    \/ is_Some (m f !! contentType)) ->
   exists msg, CSM.Reg f contentType spec = (f, Some msg))
  /\ (~ (Go.len contentType <> contentTypeLen
         \/ Go.ContainsRune contentType Go.Separator = true
         \/ is_Some (m f !! contentType)) ->
      let f' := {| m := <[contentType := spec]> (m f) |} in
      CSM.Reg f contentType spec = (f', None)
      /\ CSM.Resolver f' contentType = Some spec
      /\ exists msg, CSM.Reg f' contentType spec' = (f', Some msg)).
Proof.
  unfold CSM.Reg, CSM.Resolver. split.
  - intros H.
    destruct (Go.ContainsRune contentType Go.Separator) eqn:Esep;
      [eauto|].
    destruct (Nat.eqb_spec (Go.len contentType) contentTypeLen) as [El|El];
      cbn [negb]; [|eauto].
    destruct (m f !! contentType) as [r|] eqn:Em; [eauto|].
    destruct H as [H|[H|[r H]]]; [contradiction|discriminate|discriminate].
  - intros H.
    destruct (Go.ContainsRune contentType Go.Separator) eqn:Esep;
      [exfalso; apply H; auto|].
    destruct (Nat.eqb_spec (Go.len contentType) contentTypeLen) as [El|El];
      cbn [negb]; [|exfalso; apply H; auto].
    destruct (m f !! contentType) as [r|] eqn:Em;
      [exfalso; apply H; eauto|].
    cbn [m]. rewrite lookup_insert_eq. eauto.
Qed.

(** C10.  [Gen] returns the FQN that the mountpath makes of the unique
    name whenever the content type is registered; for a content type that
    is not registered the lookup gives no resolver and [Gen] has no result
    (the call through the nil interface panics): [Gen] has a result
    exactly for the registered content types. *)
Theorem Gen_defined_iff_registered (f : contentSpecMgr) (tie : string)
  (parts : PartsFQN) (contentType prefix : string) :
  (forall spec, CSM.Resolver f contentType = Some spec ->
     CSM.Gen f tie parts contentType prefix =
       Some (MakePathFQN (PartsMountpath parts) (Bucket parts) contentType
               (GenUniqueFQN spec tie (ObjectName parts) prefix)))
  /\ (CSM.Resolver f contentType = None ->
        CSM.Gen f tie parts contentType prefix = None)
  /\ (is_Some (CSM.Gen f tie parts contentType prefix)
      <-> is_Some (m f !! contentType)).
Proof.
  unfold CSM.Gen, CSM.Resolver. repeat split.
  - intros spec ->. reflexivity.
  - intros ->. reflexivity.
  - destruct (m f !! contentType); intros [x Hx]; [eauto|discriminate].
  - intros [spec ->]. eauto.
Qed.

(** C8.  On a path whose directory part does not end with the separator,
    or whose base name is empty, or that [ParseFQN] rejects, or whose
    content type is not registered, [FileSpec] returns a nil resolver and
    a nil information; it has no error result. *)
Theorem FileSpec_malformed_absent (f : contentSpecMgr) (fqn : string) :
  Go.HasSuffix (Go.Split fqn).1 "/" = false
  \/ (Go.Split fqn).2 = ""
  \/ ParseFQN fqn = None
  \/ (exists p, ParseFQN fqn = Some p /\ m f !! ContentType p = None) ->
  CSM.FileSpec f fqn = (None, None).
Proof. apply FileSpec_absent. Qed.

(** C6.  For an FQN whose content type is not registered, and for one
    that [FileSpec] does not decode, [PermToEvict] returns true (and not
    old), [PermToMove] and [PermToProcess] return false. *)
Theorem unknown_content_evict_only (f : contentSpecMgr) (fqn : string) :
  (exists p, ParseFQN fqn = Some p /\ m f !! ContentType p = None)
  \/ (CSM.FileSpec f fqn).1 = None ->
  CSM.PermToEvict f fqn = Some (true, false)
  /\ CSM.PermToMove f fqn = false
  /\ CSM.PermToProcess f fqn = false.
Proof.
  intros H.
  assert (HF : (CSM.FileSpec f fqn).1 = None).
  { destruct H as [H|H]; [|exact H].
    rewrite FileSpec_absent; [reflexivity|]. auto. }
  unfold CSM.PermToEvict, CSM.PermToMove, CSM.PermToProcess.
  destruct (CSM.FileSpec f fqn) as [[spec|] info]; [discriminate|].
  auto.
Qed.

(** [PermToEvict] never reads [info.Old] through a nil information. *)
Lemma PermToEvict_defined (f : contentSpecMgr) (fqn : string) :
  is_Some (CSM.PermToEvict f fqn).
Proof.
  unfold CSM.PermToEvict.
  destruct (FileSpec_both_or_neither f fqn) as [->|(spec & info & ->)];
    eauto.
Qed.

End Codec.

(** ** Workfiles of another process are old *)

(** C7, as the code has it.  For a workfile name generated in the process
    [P1] (an int64) with a tie breaker free of dots, whenever the path that
    [GenUniqueFQN] joins and cleans still has a dot (as it has for every
    prefix that is a path element of its own: not empty, not [.], no
    separator), [ParseUniqueFQN] in the process [P2] succeeds and reports
    old exactly when [P2] differs from [P1]. *)
Theorem Workfile_old_iff_other_process (P1 P2 : Z) (tie base prefix : string) :
  int64 P1 ->
  Go.IndexByte tie dot = None ->
  (prefix <> "" /\ prefix <> "."
   /\ Go.IndexByte prefix Go.Separator = None)
  \/ Go.ContainsRune
       (Go.Join (Go.Split base).1 (prefix +:+ "." +:+ (Go.Split base).2))
       dot = true ->
  exists orig old,
    ParseUniqueFQN (WorkfileContentResolver P2)
      (GenUniqueFQN (WorkfileContentResolver P1) tie base prefix)
    = (orig, old, true)
    /\ (old = true <-> P2 <> P1).
Proof.
  intros HP Htie Hdot.
  assert (HJ : Go.ContainsRune
                 (Go.Join (Go.Split base).1
                    (prefix +:+ "." +:+ (Go.Split base).2)) dot = true).
  { destruct Hdot as [(H1 & H2 & H3)|H]; [|exact H].
    apply Workfile_join_keeps_dot; assumption. }
  cbn [ParseUniqueFQN GenUniqueFQN WorkfileContentResolver].
  unfold Workfile_GenUniqueFQN.
  destruct (Go.Split base) as [dir fname]; cbn [fst snd] in HJ.
  rewrite (Workfile_Parse_name P1 P2 tie _ HP Htie).
  unfold Go.ContainsRune in HJ.
  destruct (Go.IndexByte (Go.Join dir _) dot) as [i|]; [|discriminate].
  eexists _, _. split; [reflexivity|].
  rewrite negb_true_iff, Z.eqb_neq. split; intros H E; apply H; auto.
Qed.

(** ** Decoding what [Gen] encodes *)

Section RoundTrip.
Context `{L : FQNLayout}.

Lemma FileSpec_identity (f : contentSpecMgr) (D o : string) (p : ParsedFQN)
  (spec : ContentResolver) :
  (forall b, ParseUniqueFQN spec b = (b, false, true)) ->
  (Go.Split o).2 <> "" ->
  ParseFQN (D +:+ "/" +:+ o) = Some p ->
  m f !! ContentType p = Some spec ->
  CSM.FileSpec f (D +:+ "/" +:+ o) =
    (Some spec,
     Some {| Dir := (Go.Split (D +:+ "/" +:+ o)).1; Base := (Go.Split o).2;
             CType := ContentType p; Old := false |}).
Proof.
  intros Hid Hne Hp Hm.
  destruct (Split_spec o) as (Hcat & Hfree & Hdl).
  destruct (Go.Split o) as [d0 f0]; cbn [fst snd] in *. subst o.
  destruct (FileSpec_under f D d0 f0 p spec f0 false Hdl Hfree Hne Hp Hm
              (Hid f0)) as [HS HF].
  rewrite HF, HS. reflexivity.
Qed.

Lemma FileSpec_workfile (f : contentSpecMgr) (pid : Z)
  (D tie o prefix : string) (p : ParsedFQN) :
  int64 pid ->
  Go.IndexByte tie dot = None -> Go.IndexByte tie Go.Separator = None ->
  prefix <> "" ->
  Go.IndexByte prefix dot = None ->
  Go.IndexByte prefix Go.Separator = None ->
  ParseFQN (D +:+ "/" +:+ Workfile_GenUniqueFQN pid tie o prefix) = Some p ->
  m f !! ContentType p = Some (WorkfileContentResolver pid) ->
  CSM.FileSpec f (D +:+ "/" +:+ Workfile_GenUniqueFQN pid tie o prefix) =
    (Some (WorkfileContentResolver pid),
     Some {| Dir := (Go.Split (D +:+ "/"
                       +:+ Workfile_GenUniqueFQN pid tie o prefix)).1;
             Base := (Go.Split o).2;
             CType := ContentType p; Old := false |}).
Proof.
  intros HP Htd Hts Hne Hpd Hps. unfold Workfile_GenUniqueFQN.
  destruct (Split_spec o) as (_ & Hfree & _).
  destruct (Go.Split o) as [d0 f0]; cbn [fst snd] in *.
  pose proof (prefixed_ordinary prefix f0 Hne (dot_free_not_dot _ Hpd)
                Hps Hfree) as He.
  destruct (Join_keeps_last d0 _ He) as (X & -> & HX).
  rewrite !append_assoc. intros Hp Hm.
  set (b := prefix +:+ "." +:+ f0 +:+ "." +:+ tie +:+ "." +:+ spid pid)
    in *.
  assert (Hbe : b = (prefix +:+ "." +:+ f0)
                     +:+ "." +:+ tie +:+ "." +:+ spid pid)
    by (unfold b; rewrite !append_assoc; reflexivity).
  assert (Hb : Go.IndexByte b Go.Separator = None).
  { rewrite Hbe.
    apply IndexByte_append_free; [apply He|].
    change ("." +:+ tie +:+ "." +:+ spid pid)
      with (String dot (tie +:+ String dot (spid pid))).
    rewrite IndexByte_cons. change (Ascii.eqb dot Go.Separator) with false.
    rewrite IndexByte_append_free; [reflexivity|exact Hts|].
    rewrite IndexByte_cons. change (Ascii.eqb dot Go.Separator) with false.
    rewrite spid_free; [reflexivity|reflexivity|discriminate]. }
  assert (Hbne : b <> "").
  { unfold b. destruct prefix; [congruence|]. rewrite append_cons.
    discriminate. }
  assert (Hu : ParseUniqueFQN (WorkfileContentResolver pid) b
               = (f0, false, true)).
  { cbn [ParseUniqueFQN WorkfileContentResolver]. rewrite Hbe.
    rewrite (Workfile_Parse_name pid pid tie _ HP Htd).
    destruct (prefixed_name prefix f0 Hpd) as [-> ->].
    rewrite Z.eqb_refl. reflexivity. }
  destruct (FileSpec_under f D X b p _ f0 false HX Hb Hbne Hp Hm Hu)
    as [HS HF].
  rewrite HF, HS. reflexivity.
Qed.

(** C1, as the code has it.  For a content type registered with one of
    the four resolvers, and an FQN that the mountpath makes by putting the
    unique name after a separator and that [ParseFQN] reads the content
    type back from, [FileSpec] of what [Gen] returns gives the resolver,
    the content type, the old flag (false in the same process) and, as
    base, the last path element of the object name; for workfiles with a
    prefix that is not empty and has no dot or separator. *)
Theorem Gen_FileSpec_basename (f : contentSpecMgr) (pid : Z) (tie : string)
  (parts : PartsFQN) (contentType prefix : string) (spec : ContentResolver)
  (D : string) :
  m f !! contentType = Some spec ->
  codec_input pid tie (ObjectName parts) prefix spec ->
  MakePathFQN (PartsMountpath parts) (Bucket parts) contentType
    (GenUniqueFQN spec tie (ObjectName parts) prefix)
  = D +:+ "/" +:+ GenUniqueFQN spec tie (ObjectName parts) prefix ->
  (exists p,
     ParseFQN (D +:+ "/" +:+ GenUniqueFQN spec tie (ObjectName parts) prefix)
     = Some p /\ ContentType p = contentType) ->
  exists fqn,
    CSM.Gen f tie parts contentType prefix = Some fqn
    /\ CSM.FileSpec f fqn =
         (Some spec,
          Some {| Dir := (Go.Split fqn).1;
                  Base := (Go.Split (ObjectName parts)).2;
                  CType := contentType; Old := false |}).
Proof.
  intros Hm Hin Hmk (p & Hp & Hct).
  eexists. unfold CSM.Gen. rewrite Hm. split; [reflexivity|].
  rewrite Hmk. subst contentType.
  destruct Hin as [Hne|Hne|Hne|HP Htd Hts Hne Hpd Hps].
  - apply FileSpec_identity; auto.
  - apply FileSpec_identity; auto.
  - apply FileSpec_identity; auto.
  - apply FileSpec_workfile; auto.
Qed.

End RoundTrip.

(** ** The codec on the layout [/root/bucket/type/name] *)

Example Reg_examples :
  let f := registry_model 4242 in
  (CSM.Reg {| m := ∅ |} "w" ObjectContentResolver).2
    = Some "w content type must have length 2"
  /\ (CSM.Reg {| m := ∅ |} "wkk" ObjectContentResolver).2
    = Some "wkk content type must have length 2"
  /\ (CSM.Reg {| m := ∅ |} "w/" ObjectContentResolver).2
    = Some "w/ content type cannot contain '/'"
  /\ (CSM.Reg {| m := ∅ |} "wk" ObjectContentResolver).2 = None
  /\ (CSM.Reg f "wk" ObjectContentResolver).2
    = Some "wk content type is already registered"
  /\ dom (m f) = {[ "ob"; "wk"; "ec"; "mt" ]}.
Proof. vm_compute. repeat split. Qed.

Lemma registry_model_lookup (pid : Z) :
  m (registry_model pid) !! ObjectType = Some ObjectContentResolver
  /\ m (registry_model pid) !! WorkfileType
     = Some (WorkfileContentResolver pid)
  /\ m (registry_model pid) !! ECSliceType = Some ECSliceContentResolver
  /\ m (registry_model pid) !! ECMetaType = Some ECMetaContentResolver
  /\ m (registry_model pid) !! "zz" = None.
Proof. repeat split. Qed.

(** C1: an object name with a directory part.  [Gen] for the object
    [dir/obj] gives [/mp/bck/ob/dir/obj]; [FileSpec] of that path has the
    base [obj], not the object name. *)
Lemma Gen_FileSpec_counterexample :
  CSM.Gen (registry_model 4242) "abc" (parts_model "dir/obj") ObjectType ""
    = Some "/mp/bck/ob/dir/obj"
  /\ CSM.FileSpec (registry_model 4242) "/mp/bck/ob/dir/obj"
     = (Some ObjectContentResolver,
        Some {| Dir := "/mp/bck/ob/dir/"; Base := "obj";
                CType := ObjectType; Old := false |})
  /\ "obj" <> ObjectName (parts_model "dir/obj").
Proof. repeat split. discriminate. Qed.

(** A prefix with a dot: [ParseUniqueFQN] cuts the name after the first
    dot, inside the prefix. *)
Example Gen_FileSpec_dotted_prefix_example :
  CSM.Gen (registry_model 4242) "abc" (parts_model "obj.txt") WorkfileType
    "a.b" = Some "/mp/bck/wk/a.b.obj.txt.abc.1092"
  /\ CSM.FileSpec (registry_model 4242) "/mp/bck/wk/a.b.obj.txt.abc.1092"
     = (Some (WorkfileContentResolver 4242),
        Some {| Dir := "/mp/bck/wk/"; Base := "b.obj.txt";
                CType := WorkfileType; Old := false |}).
Proof. split; reflexivity. Qed.

Lemma Gen_FileSpec_basename_witness :
  m (registry_model 4242) !! WorkfileType
    = Some (WorkfileContentResolver 4242)
  /\ codec_input 4242 "abc" "dir/obj.txt" "put" (WorkfileContentResolver 4242)
  /\ exists fqn,
       CSM.Gen (registry_model 4242) "abc" (parts_model "dir/obj.txt")
         WorkfileType "put" = Some fqn
       /\ CSM.FileSpec (registry_model 4242) fqn =
            (Some (WorkfileContentResolver 4242),
             Some {| Dir := (Go.Split fqn).1; Base := "obj.txt";
                     CType := WorkfileType; Old := false |}).
Proof.
  assert (Hin : codec_input 4242 "abc" "dir/obj.txt" "put"
                  (WorkfileContentResolver 4242)).
  { constructor; try reflexivity; try discriminate. unfold int64. lia. }
  split; [reflexivity|]. split; [exact Hin|].
  apply (Gen_FileSpec_basename (registry_model 4242) 4242 "abc"
           (parts_model "dir/obj.txt") WorkfileType "put"
           (WorkfileContentResolver 4242) "/mp/bck/wk").
  - reflexivity.
  - exact Hin.
  - reflexivity.
  - eexists. split; reflexivity.
Defined.

(** C7: the object name [a/] with an empty prefix.  The name generated in
    process 4242 is [a.tie.1092]: cleaning the joined path [a//.] removed
    the dot after the prefix.  Process 77 fails to parse it and reports
    not old. *)
Lemma Workfile_old_counterexample :
  GenUniqueFQN (WorkfileContentResolver 4242) "tie" "a/" "" = "a.tie.1092"
  /\ ParseUniqueFQN (WorkfileContentResolver 77) "a.tie.1092"
     = ("", false, false)
  /\ 77 <> 4242.
Proof. repeat split. discriminate. Qed.

Lemma Workfile_old_iff_other_process_witness :
  int64 4242 /\ Go.IndexByte "abc" dot = None
  /\ exists orig old,
       ParseUniqueFQN (WorkfileContentResolver 77)
         (GenUniqueFQN (WorkfileContentResolver 4242) "abc" "dir/obj.txt"
            "put")
       = (orig, old, true)
       /\ (old = true <-> 77 <> 4242).
Proof.
  split; [unfold int64; lia|]. split; [reflexivity|].
  apply (Workfile_old_iff_other_process 4242 77 "abc" "dir/obj.txt" "put").
  - unfold int64. lia.
  - reflexivity.
  - right. reflexivity.
Defined.

Lemma FileSpec_malformed_absent_witness :
  Go.HasSuffix (Go.Split "obj").1 "/" = false
  /\ (Go.Split "/mp/bck/ob/dir/").2 = ""
  /\ CSM.FileSpec (registry_model 4242) "obj" = (None, None)
  /\ CSM.FileSpec (registry_model 4242) "/mp/bck/ob/dir/" = (None, None)
  /\ CSM.FileSpec (registry_model 4242) "/mp/bck/zz/obj" = (None, None).
Proof.
  split; [reflexivity|]. split; [reflexivity|].
  split; [|split].
  - apply (FileSpec_malformed_absent (registry_model 4242) "obj").
    left. reflexivity.
  - apply (FileSpec_malformed_absent (registry_model 4242)
             "/mp/bck/ob/dir/").
    right. left. reflexivity.
  - apply (FileSpec_malformed_absent (registry_model 4242)
             "/mp/bck/zz/obj").
    right. right. right. eexists. split; reflexivity.
Defined.

Lemma unknown_content_evict_only_witness :
  (exists p, ParseFQN "/mp/bck/zz/obj" = Some p
             /\ m (registry_model 4242) !! ContentType p = None)
  /\ CSM.PermToEvict (registry_model 4242) "/mp/bck/zz/obj"
     = Some (true, false)
  /\ CSM.PermToMove (registry_model 4242) "/mp/bck/zz/obj" = false
  /\ CSM.PermToProcess (registry_model 4242) "/mp/bck/zz/obj" = false.
Proof.
  assert (H : exists p, ParseFQN "/mp/bck/zz/obj" = Some p
                        /\ m (registry_model 4242) !! ContentType p = None)
    by (eexists; split; reflexivity).
  split; [exact H|].
  apply (unknown_content_evict_only (registry_model 4242) "/mp/bck/zz/obj").
  left. exact H.
Defined.

(** ** The bucket-copy jogger *)

Lemma wrap64_small (z : Z) : int64 z -> wrap64 z = z.
Proof.
  unfold int64, wrap64. intros Hz. rewrite Z.mod_small; lia.
Qed.

Lemma wrap64_add_wrap64 (a b : Z) : wrap64 (a + wrap64 b) = wrap64 (a + b).
Proof.
  unfold wrap64.
  replace (a + ((b + 2 ^ 63) mod 2 ^ 64 - 2 ^ 63) + 2 ^ 63)
    with (a + (b + 2 ^ 63) mod 2 ^ 64) by lia.
  rewrite Zplus_mod_idemp_r. f_equal. f_equal. lia.
Qed.

Lemma wrap64_int64 (z : Z) : int64 (wrap64 z).
Proof.
  unfold int64, wrap64.
  pose proof (Z.mod_pos_bound (z + 2 ^ 63) (2 ^ 64) ltac:(lia)). lia.
Qed.

Section Jogger.
Context `{C : Cmn}.

Lemma quiet_ext_trans (t1 t2 t3 : list Event) :
  quiet_ext t1 t2 -> quiet_ext t2 t3 -> quiet_ext t1 t3.
Proof.
  intros H12 H23. induction H23 as [|e t' He _ IH]; [exact H12|].
  constructor; assumption.
Qed.

Lemma quiet_ext_app (t t' : list Event) :
  quiet_ext t t' ->
  exists mid, t' = mid ++ t
    /\ forallb (fun e => negb (is_slab_event e)) mid = true.
Proof.
  induction 1 as [|e t' He _ (mid & -> & Hmid)].
  - exists []. split; reflexivity.
  - exists (e :: mid). split; [reflexivity|].
    simpl. rewrite He, Hmid. reflexivity.
Qed.

Lemma quiet_refl_state (s : State) : quiet s s.
Proof. repeat split. constructor. Qed.

Lemma quiet_trans (s1 s2 s3 : State) : quiet s1 s2 -> quiet s2 s3 -> quiet s1 s3.
Proof.
  intros (H1 & H2 & H3) (H4 & H5 & H6). repeat split.
  - eapply quiet_ext_trans; eassumption.
  - congruence.
  - congruence.
Qed.

Ltac quiet_tac :=
  repeat split; cbn [trace buf slabLive log];
  repeat (first [apply quiet_refl | apply quiet_cons; [reflexivity|]]).

(** What [copyObject] does, case by case: the result, and the state
    after it. *)
Lemma copyObject_cases (job : Job) (lom : LOM) (s : State) :
  let r := CopyObject job lom (buf s) in
  let n' := wrap64 (num s + 1) in
  let polled := r.1 && (Z.rem n' throttleNumObjects =? 0) in
  let aborted e := Some (NewAbortedErrorDetails (what job) (ErrorText e)) in
  (copyObject job lom s).1 =
    match (if polled then GetCapStatus job (capPolls s) else None) with
    | Some csErr => aborted csErr
    | None =>
        match r.2 with
        | Some err => if IsErrOOS err then aborted err else Some err
        | None => None
        end
    end
  /\ objCount (copyObject job lom s).2 =
       (if r.1 then wrap64 (objCount s + 1) else objCount s)
  /\ bytesCount (copyObject job lom s).2 =
       (if r.1 then wrap64 (bytesCount s + wrap64 (Size lom + Size lom))
        else bytesCount s)
  /\ num (copyObject job lom s).2 = (if r.1 then n' else num s)
  /\ capPolls (copyObject job lom s).2 =
       (if polled then S (capPolls s) else capPolls s)
  /\ quiet s (copyObject job lom s).2.
Proof.
  unfold copyObject, copied_branch, bind, get_buf, call_CopyObject,
    ObjectsInc, BytesAdd, num_inc, get_num, poll_cap, ret.
  cbn [fst snd].
  destruct (CopyObject job lom (buf s)) as [[|] err]; cbn [fst snd andb].
  - cbn [num log objCount bytesCount buf slabLive capPolls trace].
    destruct (Z.rem (wrap64 (num s + 1)) throttleNumObjects =? 0).
    + cbn [capPolls log].
      destruct (GetCapStatus job (capPolls s)) as [csErr|]; cbn [fst snd].
      * quiet_tac.
      * destruct err as [err|]; [destruct (IsErrOOS err)|]; quiet_tac.
    + destruct err as [err|]; [destruct (IsErrOOS err)|]; quiet_tac.
  - destruct err as [err|]; [destruct (IsErrOOS err)|]; quiet_tac.
Qed.

(** C4.  When [CopyObject] reports the object copied, [copyObject] adds
    one to the object counter and twice the size of the object to the byte
    counter, in int64 arithmetic (exactly so when nothing overflows); when
    it reports the object not copied, neither counter changes. *)
Theorem copyObject_counters (job : Job) (lom : LOM) (s : State) :
  ((CopyObject job lom (buf s)).1 = true ->
     objCount (copyObject job lom s).2 = wrap64 (objCount s + 1)
     /\ bytesCount (copyObject job lom s).2
        = wrap64 (bytesCount s + 2 * Size lom)
     /\ (int64 (objCount s + 1) -> int64 (bytesCount s + 2 * Size lom) ->
         objCount (copyObject job lom s).2 = objCount s + 1
         /\ bytesCount (copyObject job lom s).2
            = bytesCount s + Size lom + Size lom))
  /\ ((CopyObject job lom (buf s)).1 = false ->
        objCount (copyObject job lom s).2 = objCount s
        /\ bytesCount (copyObject job lom s).2 = bytesCount s).
Proof.
  destruct (copyObject_cases job lom s) as (_ & Ho & Hb & _).
  cbv zeta in Ho, Hb. split; intros Hc; rewrite Hc in Ho, Hb.
  - rewrite wrap64_add_wrap64 in Hb.
    replace (bytesCount s + (Size lom + Size lom))
      with (bytesCount s + 2 * Size lom) in Hb by lia.
    split; [exact Ho|]. split; [exact Hb|].
    intros H1 H2. rewrite Ho, Hb, !wrap64_small by assumption. lia.
  - split; assumption.
Qed.

(** A step of the count passes a multiple of the interval exactly when it
    lands on one. *)
Lemma div_succ (n T : Z) :
  0 < T -> (n + 1) / T = n / T + (if Z.rem (n + 1) T =? 0 then 1 else 0).
Proof.
  intros HT.
  destruct (Z.rem (n + 1) T =? 0) eqn:E.
  - apply Z.eqb_eq in E. apply Z.rem_divide in E; [|lia].
    destruct E as [q Hq]. 
    assert (n = (q - 1) * T + (T - 1)) by lia.
    rewrite Hq, Z.div_mul by lia.
    subst n. rewrite Z.div_add_l by lia. rewrite Z.div_small by lia. lia.
  - apply Z.eqb_neq in E.
    assert (Hm : (n + 1) mod T <> 0).
    { intros Hm. apply E. apply Z.rem_divide; [lia|].
      apply Z.mod_divide; [lia|exact Hm]. }
    pose proof (Z.div_mod (n + 1) T ltac:(lia)) as H1.
    pose proof (Z.mod_pos_bound (n + 1) T HT) as H2.
    rewrite Z.add_0_r.
    apply (Z.div_unique n T ((n + 1) / T) ((n + 1) mod T - 1)); lia.
Qed.

Lemma copyObject_copied_count (job : Job) (lom : LOM) (s : State) :
  copied_count job (trace (copyObject job lom s).2)
  = ((if (CopyObject job lom (buf s)).1 then 1 else 0)
     + copied_count job (trace s))%nat
  /\ processed_count (trace (copyObject job lom s).2)
     = S (processed_count (trace s)).
Proof.
  unfold copyObject, copied_branch, bind, get_buf, call_CopyObject,
    ObjectsInc, BytesAdd, num_inc, get_num, poll_cap, ret.
  cbn [fst snd].
  destruct (CopyObject job lom (buf s)) as [[|] err] eqn:Hc; cbn [fst snd].
  - cbn [num log objCount bytesCount buf slabLive capPolls trace].
    destruct (Z.rem (wrap64 (num s + 1)) throttleNumObjects =? 0).
    + cbn [capPolls log].
      destruct (GetCapStatus job (capPolls s)) as [csErr|]; cbn [fst snd].
      * cbn [trace log copied_count processed_count]. rewrite Hc. split; reflexivity.
      * destruct err as [err|]; [destruct (IsErrOOS err)|];
          cbn [snd trace log copied_count processed_count]; rewrite Hc; split; reflexivity.
    + destruct err as [err|]; [destruct (IsErrOOS err)|];
        cbn [snd trace log copied_count processed_count]; rewrite Hc; split; reflexivity.
  - destruct err as [err|]; [destruct (IsErrOOS err)|];
      cbn [snd trace log copied_count processed_count]; rewrite Hc; split; reflexivity.
Qed.

Lemma walk_interval (job : Job) (loms : list LOM) (s : State) :
  0 < throttleNumObjects ->
  int64 (num s) -> int64 (num s + Z.of_nat (length loms)) ->
  num (walk (copyObject job) loms s).2
  = num s + Z.of_nat (copied_count job (trace (walk (copyObject job) loms s).2))
    - Z.of_nat (copied_count job (trace s))
  /\ Z.of_nat (capPolls (walk (copyObject job) loms s).2)
     = Z.of_nat (capPolls s)
       + num (walk (copyObject job) loms s).2 / throttleNumObjects
       - num s / throttleNumObjects.
Proof.
  intros HT. revert s. induction loms as [|lom rest IH]; intros s Hn Hl.
  - cbn [walk ret snd]. split; lia.
  - cbn [walk]. unfold bind.
    destruct (copyObject_cases job lom s) as (_ & _ & _ & Hnum & Hp & _).
    destruct (copyObject_copied_count job lom s) as [Hcc _].
    cbv zeta in Hnum, Hp.
    cbn [length] in Hl. unfold int64 in Hn, Hl.
    assert (Hw : (CopyObject job lom (buf s)).1 = true ->
                 wrap64 (num s + 1) = num s + 1).
    { intros _. apply wrap64_small. unfold int64. lia. }
    pose proof (div_succ (num s) _ HT) as Hdiv.
    destruct ((CopyObject job lom (buf s)).1) eqn:Hc.
    + rewrite (Hw eq_refl) in *. cbn [andb] in Hp. cbn iota in Hcc.
      assert (Hnum_s1 : Z.of_nat (capPolls (copyObject job lom s).2)
                = Z.of_nat (capPolls s)
                  + (num s + 1) / throttleNumObjects
                  - num s / throttleNumObjects).
      { rewrite Hp, Hdiv.
        destruct (Z.rem (num s + 1) throttleNumObjects =? 0); lia. }
      destruct (copyObject job lom s) as [[e|] s1]; cbn [fst snd] in *.
      * unfold ret; cbn [snd]. split; [lia|rewrite Hnum; lia].
      * destruct (IH s1) as [IH1 IH2]; [unfold int64; lia..|].
        split; [rewrite IH1; lia|rewrite IH2, Hnum; lia].
    + cbn [andb] in Hp. cbn iota in Hcc.
      destruct (copyObject job lom s) as [[e|] s1]; cbn [fst snd] in *.
      * unfold ret; cbn [snd]. split; [lia|rewrite Hnum; lia].
      * destruct (IH s1) as [IH1 IH2]; [unfold int64; lia..|].
        split; [rewrite IH1; lia|rewrite IH2, Hnum; lia].
Qed.


(** C3.  The jogger counts in [num] the objects that [CopyObject] reports
    copied, and no others: an object processed but not copied leaves the
    count alone.  [copyObject] polls the capacity status exactly when the
    object is copied and the count reaches a multiple of
    [throttleNumObjects]; if the status polled carries an error it returns
    the abort error made of the job's kind and id and of that error.  When
    the error of the copy is classified out of space it returns an abort
    error made of the job's kind and id, and of that error or of the
    error of the status polled.  The walk stops at the object
    whose callback returned an error.  Over a whole walk whose count does
    not overflow, the count advances by the number of objects copied and
    the number of polls is the number of multiples of the interval that
    the count has passed. *)
Theorem copyObject_aborts (job : Job) (lom : LOM) (s : State) :
  num (copyObject job lom s).2
  = (if (CopyObject job lom (buf s)).1 then wrap64 (num s + 1) else num s)
  /\ capPolls (copyObject job lom s).2
     = (if (CopyObject job lom (buf s)).1
           && (Z.rem (wrap64 (num s + 1)) throttleNumObjects =? 0)
        then S (capPolls s) else capPolls s)
  /\ ((CopyObject job lom (buf s)).1 = true ->
      Z.rem (wrap64 (num s + 1)) throttleNumObjects = 0 ->
      forall csErr, GetCapStatus job (capPolls s) = Some csErr ->
        (copyObject job lom s).1 =
          Some (NewAbortedErrorDetails
                  (Kind job +:+ "(" +:+ Quote (ID job) +:+ ")")
                  (ErrorText csErr)))
  /\ (forall err,
        (CopyObject job lom (buf s)).2 = Some err -> IsErrOOS err = true ->
        exists details,
          (copyObject job lom s).1 =
            Some (NewAbortedErrorDetails
                    (Kind job +:+ "(" +:+ Quote (ID job) +:+ ")") details)
          /\ (details = ErrorText err
              \/ exists csErr,
                   GetCapStatus job (capPolls s) = Some csErr
                   /\ details = ErrorText csErr))
  /\ (forall e rest,
        (copyObject job lom s).1 = Some e ->
        walk (copyObject job) (lom :: rest) s = copyObject job lom s)
  /\ (forall loms,
        0 < throttleNumObjects ->
        int64 (num s) -> int64 (num s + Z.of_nat (length loms)) ->
        num (walk (copyObject job) loms s).2
        = num s
          + Z.of_nat
              (copied_count job (trace (walk (copyObject job) loms s).2))
          - Z.of_nat (copied_count job (trace s))
        /\ Z.of_nat (capPolls (walk (copyObject job) loms s).2)
           = Z.of_nat (capPolls s)
             + num (walk (copyObject job) loms s).2 / throttleNumObjects
             - num s / throttleNumObjects).
Proof.
  destruct (copyObject_cases job lom s) as (Hr & _ & _ & Hn & Hp & _).
  cbv zeta in Hr, Hn, Hp. fold (what job).
  split; [exact Hn|]. split; [exact Hp|]. split; [|split; [|split]].
  - intros Hc Hrem csErr Hcs. apply Z.eqb_eq in Hrem.
    rewrite Hr, Hc, Hrem. cbn [andb]. rewrite Hcs. reflexivity.
  - intros err Herr Hoos. rewrite Hr, Herr, Hoos.
    destruct ((CopyObject job lom (buf s)).1 && _); [|eauto].
    destruct (GetCapStatus job (capPolls s)) as [csErr|]; eauto 6.
  - intros e rest He. cbn [walk]. unfold bind.
    destruct (copyObject job lom s) as [[e'|] s1]; [reflexivity|discriminate].
  - intros loms. apply walk_interval.
Qed.

Lemma walk_quiet (job : Job) (loms : list LOM) (s : State) :
  quiet s (walk (copyObject job) loms s).2.
Proof.
  revert s. induction loms as [|lom rest IH]; intros s.
  - apply quiet_refl_state.
  - cbn [walk]. unfold bind.
    destruct (copyObject_cases job lom s) as (_ & _ & _ & _ & _ & Hq).
    destruct (copyObject job lom s) as [[e|] s1]; cbn [snd] in *.
    + exact Hq.
    + eapply quiet_trans; [exact Hq|apply IH].
Qed.

(** The walk stops at the first error of the callback. *)
Lemma walk_stops_at_error (job : Job) (lom : LOM) (rest : list LOM)
  (s : State) (e : error) :
  (copyObject job lom s).1 = Some e ->
  walk (copyObject job) (lom :: rest) s = copyObject job lom s.
Proof.
  intros He. cbn [walk]. unfold bind.
  destruct (copyObject job lom s) as [[e'|] s1]; [reflexivity|discriminate].
Qed.

(** C9.  [jog] takes one buffer from the slab before the walk and gives
    that buffer back after it, whatever the objects and however the walk
    ends: the history after [jog] is the allocation, events of the walk
    that do not touch the slab, and the release of the same buffer, and
    the slab holds what it held before. *)
Theorem jog_buffer_discipline (job : Job) (loms : list LOM) (s : State) :
  exists mid,
    trace (jog job loms s).2
      = EvSlabFree (Some (fresh (slabLive s))) :: mid
        ++ EvSlabAlloc (fresh (slabLive s)) :: trace s
    /\ forallb (fun e => negb (is_slab_event e)) mid = true
    /\ slabLive (jog job loms s).2 = slabLive s.
Proof.
  unfold jog, joggerBckBase_jog, bind, slab_Alloc, set_buf, get_buf,
    slab_Free. cbn [objCount bytesCount num buf slabLive capPolls trace log].
  set (b := fresh (slabLive s)).
  set (s1 := {| objCount := objCount s; bytesCount := bytesCount s;
                num := num s; buf := Some b;
                slabLive := {[ b ]} ∪ slabLive s; capPolls := capPolls s;
                trace := EvSlabAlloc b :: trace s |}).
  destruct (walk_quiet job loms s1) as (Ht & Hb & Hl).
  destruct (walk (copyObject job) loms s1) as [e s2]; cbn [snd] in *.
  cbn [objCount bytesCount num buf slabLive capPolls trace log snd].
  rewrite Hb, Hl. cbn [buf slabLive trace s1] in *.
  destruct (quiet_ext_app _ _ (quiet_cons _ (EvJoggerDone e) _ eq_refl Ht))
    as (mid & Hmid & Hquiet).
  exists mid. split; [rewrite Hmid; reflexivity|]. split; [exact Hquiet|].
  pose proof (is_fresh (slabLive s)) as Hfresh. fold b in Hfresh.
  apply set_eq. intros x.
  rewrite elem_of_difference, elem_of_union, !elem_of_singleton. split.
  - intros [[->|Hx] Hne]; [contradiction|exact Hx].
  - intros Hx. split; [right; exact Hx|]. intros ->. contradiction.
Qed.

End Jogger.

(** ** [Run]: joggers, then close, then finish *)

Section Run.
Context `{C : Cmn} {MountpathInfo : Type}.
#[local] Abbreviation event := (@RunEvent C MountpathInfo).
Implicit Types (s : @Sys C MountpathInfo) (h : list event).

Lemma Run_inv_init (availablePaths : list MountpathInfo) :
  Run_inv availablePaths Sys_init.
Proof. repeat split. Qed.

Lemma Run_inv_step (availablePaths : list MountpathInfo) s s' :
  Run_inv availablePaths s -> step availablePaths s s' ->
  Run_inv availablePaths s'.
Proof.
  intros Hinv Hstep. unfold Run_inv in *.
  destruct Hstep as [s Hpc|s mp rest Hpc|s Hpc|s before mp after err Hj
                     |s awaited first e queue Hpc Hq|s first Hpc
                     |s err Hpc|s err Hpc|s err Hpc|s err Hpc];
    cbn [pc history joggers doneCh mpathCount] in *.
  - rewrite Hpc in Hinv. destruct Hinv as (-> & -> & ->).
    repeat split.
  - rewrite Hpc in Hinv. destruct Hinv as (He & Hl & Hm & Hr & Hd).
    cbn [forallb launched reports early_event andb length].
    rewrite <- app_assoc, length_app. cbn [app length].
    repeat split; auto; lia.
  - rewrite Hpc in Hinv. destruct Hinv as (He & Hl & Hm & Hr & Hd).
    rewrite app_nil_r in Hl. subst availablePaths.
    repeat split; auto; lia.
  - assert (Hlen : length (joggers s) = S (length (before ++ after))).
    { rewrite Hj, !length_app. cbn [length]. lia. }
    destruct (pc s) eqn:Hpc;
      try (destruct Hinv as [Hnil _]; rewrite Hnil in Hj;
           destruct before; discriminate).
    + destruct Hinv as (_ & Hnil & _). rewrite Hnil in Hj.
      destruct before; discriminate.
    + destruct Hinv as (He & Hl & Hm & Hr & Hd).
      cbn [forallb launched reports early_event andb].
      rewrite !length_app in *. cbn [length] in *.
      repeat split; auto; lia.
    + destruct Hinv as (He & Hl & Hr & Hd).
      cbn [forallb launched reports early_event andb].
      rewrite !length_app in *. cbn [length] in *.
      repeat split; auto; lia.
  - rewrite Hpc in Hinv. destruct Hinv as (He & Hl & Hr & Hd).
    rewrite Hq in Hd. cbn [length] in Hd. repeat split; auto; lia.
  - rewrite Hpc in Hinv. destruct Hinv as (He & Hl & Hr & Hd).
    assert (Hj : joggers s = []). { apply length_zero_iff_nil. clear -Hr Hd. lia. }
    split; [exact Hj|]. rewrite Hj in Hr. cbn [length] in Hr.
    split; [exact He|]. split; [exact Hl|].
    cbn [reports]. lia.
  - rewrite Hpc in Hinv. destruct Hinv as (Hj & Hall). eauto.
  - rewrite Hpc in Hinv. destruct Hinv as (Hj & h0 & -> & Hall). eauto.
  - rewrite Hpc in Hinv. destruct Hinv as (Hj & h0 & -> & Hall). eauto.
  - rewrite Hpc in Hinv. destruct Hinv as (Hj & h0 & -> & Hall). eauto.
Qed.

Lemma Run_inv_rtc (availablePaths : list MountpathInfo) s s' :
  Run_inv availablePaths s -> rtc (step availablePaths) s s' ->
  Run_inv availablePaths s'.
Proof.
  intros Hinv H. induction H as [|x y z Hstep _ IH]; [exact Hinv|].
  apply IH. eapply Run_inv_step; eassumption.
Qed.

Lemma Run_inv_reachable (availablePaths : list MountpathInfo) s :
  reachable availablePaths s -> Run_inv availablePaths s.
Proof. apply Run_inv_rtc, Run_inv_init. Qed.

Lemma early_no_late (later earlier : list event) (e : event) :
  forallb early_event (later ++ e :: earlier) = true ->
  early_event e = true.
Proof.
  rewrite forallb_app. cbn [forallb].
  intros H. apply andb_prop in H as [_ H]. apply andb_prop in H as [H _].
  exact H.
Qed.

(** Where a late event sits in a history whose old part is early. *)
Lemma late_in_prefix (e : event) (pre h0 later earlier : list event) :
  forallb early_event h0 = true -> early_event e = false ->
  pre ++ h0 = later ++ e :: earlier ->
  exists l2, pre = later ++ e :: l2 /\ earlier = l2 ++ h0.
Proof.
  intros Hh0 He. revert later. induction pre as [|x pre IH]; intros later H.
  - cbn [app] in H. rewrite H in Hh0. apply early_no_late in Hh0. congruence.
  - destruct later as [|y later]; cbn [app] in H; injection H as -> H.
    + exists pre. split; [reflexivity|]. symmetry. exact H.
    + destruct (IH later H) as (l2 & -> & ->). exists l2. split; reflexivity.
Qed.

Lemma finishes_early (h : list event) :
  forallb early_event h = true -> finishes h = O.
Proof.
  induction h as [|e h IH]; cbn [forallb finishes]; [reflexivity|].
  intros H. apply andb_prop in H as [He Hh].
  destruct e; try discriminate; auto.
Qed.

(** *** Every execution can be completed *)

Lemma go_all (availablePaths rest : list MountpathInfo) s :
  pc s = PcRunJoggers rest ->
  exists s', rtc (step availablePaths) s s' /\ pc s' = PcRunJoggers [].
Proof.
  revert s. induction rest as [|mp rest IH]; intros s Hpc.
  - exists s. split; [constructor|exact Hpc].
  - edestruct IH as (s' & Hs' & Hpc'); [|exists s'; split; [|exact Hpc']].
    2: { eapply rtc_l; [apply (step_go _ s mp rest Hpc)|exact Hs']. }
    reflexivity.
Qed.

Lemma report_all (availablePaths : list MountpathInfo) (n : nat) s :
  length (joggers s) = n ->
  exists s', rtc (step availablePaths) s s'
             /\ joggers s' = [] /\ pc s' = pc s.
Proof.
  revert s. induction n as [|n IH]; intros s Hn.
  - exists s. split; [constructor|]. split; [|reflexivity].
    apply length_zero_iff_nil. exact Hn.
  - destruct (joggers s) as [|mp after] eqn:Hj; [discriminate|].
    pose proof (step_report availablePaths s [] mp after None Hj) as Hstep.
    edestruct IH as (s' & Hs' & Hj' & Hpc');
      [|exists s'; split; [eapply rtc_l; [exact Hstep|exact Hs']|]].
    + cbn [joggers app]. cbn [length] in Hn. lia.
    + split; [exact Hj'|exact Hpc'].
Qed.

Lemma recv_all (availablePaths : list MountpathInfo) (k : nat) s first :
  pc s = PcWaitDone k first -> length (doneCh s) = k ->
  exists s' first', rtc (step availablePaths) s s'
                    /\ pc s' = PcWaitDone 0 first'.
Proof.
  revert s first. induction k as [|k IH]; intros s first Hpc Hd.
  - exists s, first. split; [constructor|exact Hpc].
  - destruct (doneCh s) as [|e queue] eqn:Hq; [discriminate|].
    pose proof (step_recv availablePaths s k first e queue Hpc Hq) as Hstep.
    edestruct IH as (s' & first' & Hs' & Hpc');
      [| |exists s', first'; split;
           [eapply rtc_l; [exact Hstep|exact Hs']|exact Hpc']].
    + reflexivity.
    + cbn [doneCh]. cbn [length] in Hd. lia.
Qed.

Lemma complete_from_sleep (availablePaths : list MountpathInfo) s err :
  pc s = PcSleep err ->
  exists s', rtc (step availablePaths) s s' /\ pc s' = PcReturned err.
Proof.
  intros Hpc. eexists. split.
  - eapply rtc_l; [apply (step_sleep _ s err Hpc)|].
    eapply rtc_l; [apply step_close; reflexivity|].
    eapply rtc_l; [apply step_unreg; reflexivity|].
    eapply rtc_l; [apply step_finish; reflexivity|].
    apply rtc_refl.
  - reflexivity.
Qed.

Lemma complete_from_wait (availablePaths : list MountpathInfo) s k first :
  Run_inv availablePaths s -> pc s = PcWaitDone k first ->
  exists s' err, rtc (step availablePaths) s s' /\ pc s' = PcReturned err.
Proof.
  intros Hinv Hpc.
  destruct (report_all availablePaths _ s eq_refl) as (s1 & H1 & Hj1 & Hpc1).
  pose proof (Run_inv_rtc _ _ _ Hinv H1) as Hinv1.
  unfold Run_inv in Hinv1. rewrite Hpc1, Hpc in Hinv1.
  destruct Hinv1 as (_ & _ & Hr & Hd). rewrite Hj1 in Hr. cbn [length] in Hr.
  destruct (recv_all availablePaths k s1 first) as (s2 & first' & H2 & Hpc2).
  { congruence. }
  { clear -Hr Hd. lia. }
  destruct (complete_from_sleep availablePaths
              {| pc := PcSleep first'; mpathCount := mpathCount s2;
                 joggers := joggers s2; doneCh := doneCh s2;
                 history := EvWaitDone first' :: history s2 |} first'
              eq_refl) as (s3 & H3 & Hpc3).
  exists s3, first'. split; [|exact Hpc3].
  eapply rtc_trans; [exact H1|].
  eapply rtc_trans; [exact H2|].
  eapply rtc_l; [apply (step_wait_ret _ s2 first' Hpc2)|exact H3].
Qed.

Lemma complete_from_run (availablePaths : list MountpathInfo) s rest :
  Run_inv availablePaths s -> pc s = PcRunJoggers rest ->
  exists s' err, rtc (step availablePaths) s s' /\ pc s' = PcReturned err.
Proof.
  intros Hinv Hpc.
  destruct (go_all availablePaths rest s Hpc) as (s1 & H1 & Hpc1).
  pose proof (step_joggers_ret availablePaths s1 Hpc1) as Hstep.
  pose proof (Run_inv_step _ _ _ (Run_inv_rtc _ _ _ Hinv H1) Hstep) as Hinv2.
  destruct (complete_from_wait availablePaths _ _ _ Hinv2 eq_refl)
    as (s3 & err & H3 & Hpc3).
  exists s3, err. split; [|exact Hpc3].
  eapply rtc_trans; [exact H1|].
  eapply rtc_l; [exact Hstep|exact H3].
Qed.

Lemma Run_can_complete (availablePaths : list MountpathInfo) s :
  Run_inv availablePaths s ->
  exists s' err, rtc (step availablePaths) s s' /\ pc s' = PcReturned err.
Proof.
  intros Hinv. destruct (pc s) as [|rest|k first|err|err|err|err|err] eqn:Hpc.
  - pose proof (step_open availablePaths s Hpc) as Hstep.
    destruct (complete_from_run availablePaths _ _
                (Run_inv_step _ _ _ Hinv Hstep) eq_refl)
      as (s' & err & H & Hpc').
    exists s', err. split; [eapply rtc_l; eassumption|exact Hpc'].
  - eapply complete_from_run; eassumption.
  - eapply complete_from_wait; eassumption.
  - destruct (complete_from_sleep availablePaths s err Hpc) as (s' & H & Hpc').
    eauto.
  - eexists _, err. split.
    + eapply rtc_l; [apply (step_close _ s err Hpc)|].
      eapply rtc_l; [apply step_unreg; reflexivity|].
      eapply rtc_l; [apply step_finish; reflexivity|]. apply rtc_refl.
    + reflexivity.
  - eexists _, err. split.
    + eapply rtc_l; [apply (step_unreg _ s err Hpc)|].
      eapply rtc_l; [apply step_finish; reflexivity|]. apply rtc_refl.
    + reflexivity.
  - eexists _, err. split.
    + eapply rtc_l; [apply (step_finish _ s err Hpc)|]. apply rtc_refl.
    + reflexivity.
  - exists s, err. split; [apply rtc_refl|exact Hpc].
Qed.

Lemma decomp_nil (e : event) (later l2 : list event) :
  [] = later ++ e :: l2 -> False.
Proof. destruct later; discriminate. Qed.

Lemma decomp_cons (x e : event) (pre later l2 : list event) :
  x :: pre = later ++ e :: l2 ->
  (later = [] /\ x = e /\ l2 = pre)
  \/ (exists later', later = x :: later' /\ pre = later' ++ e :: l2).
Proof.
  destruct later as [|y later]; cbn [app]; intros [= -> ->]; eauto.
Qed.

Ltac decomp H :=
  lazymatch type of H with
  | [] = _ ++ _ :: _ => exfalso; exact (decomp_nil _ _ _ H)
  | _ :: _ = _ ++ _ :: _ =>
      let Hx := fresh "Hx" in
      apply decomp_cons in H as [(-> & Hx & ->)|(? & -> & H)];
      [ try discriminate Hx; try (injection Hx as <-) | decomp H ]
  end.

Ltac shape_side :=
  solve [ reflexivity | assumption | discriminate
        | intros; congruence
        | intros _; split; [|split]; assumption
        | exists []; rewrite app_nil_r; assumption
        | eexists; eassumption
        | eexists; reflexivity ].

(** C2.  In every state that an execution of [Run] over the snapshot
    [availablePaths] reaches: the joggers launched so far are the first
    mountpaths of the snapshot, and all of them, one each, once [Run] has
    left [runJoggers]; what comes before any [Close] of the DataMover in
    the history is the two-second sleep and, before the sleep, a history
    of launches, reports and the return of [waitDone] in which every
    jogger of the snapshot has been launched and there are as many
    completion reports as mountpaths; before any [UnregRecv] comes that
    [Close], before any [Finish] that [UnregRecv], in this order with
    nothing in between, and no other [Finish] before or after it; when
    [Run] has returned [Finish] has been called exactly once; and the
    execution can always be continued until [Run] returns. *)
Theorem Run_joggers_close_finish (availablePaths : list MountpathInfo) s :
  reachable availablePaths s ->
  (exists rest, launched (history s) ++ rest = availablePaths)
  /\ (joggers_launched (pc s) = true ->
      launched (history s) = availablePaths)
  /\ (forall later earlier, history s = later ++ EvClose :: earlier ->
        (exists h0, earlier = EvSleep 2 :: h0
                    /\ all_reported availablePaths h0)
        /\ reports earlier = length availablePaths
        /\ In (EvSleep 2) earlier)
  /\ (forall later earlier, history s = later ++ EvUnregRecv :: earlier ->
        (exists h0, earlier = EvClose :: EvSleep 2 :: h0
                    /\ all_reported availablePaths h0)
        /\ reports earlier = length availablePaths
        /\ In (EvSleep 2) earlier /\ In EvClose earlier)
  /\ (forall later err earlier,
        history s = later ++ EvFinish err :: earlier ->
        (exists h0, earlier = EvUnregRecv :: EvClose :: EvSleep 2 :: h0
                    /\ all_reported availablePaths h0)
        /\ reports earlier = length availablePaths
        /\ finishes later = O /\ finishes earlier = O
        /\ In EvClose earlier /\ In EvUnregRecv earlier)
  /\ (forall err, pc s = PcReturned err -> finishes (history s) = 1%nat)
  /\ (exists s' err,
        rtc (step availablePaths) s s' /\ pc s' = PcReturned err).
Proof.
  intros Hreach. pose proof (Run_inv_reachable _ _ Hreach) as Hinv.
  assert (Hshape : exists pre h0 err,
            history s = pre ++ h0
            /\ forallb early_event h0 = true
            /\ (exists rest, launched h0 ++ rest = availablePaths)
            /\ (joggers_launched (pc s) = true ->
                launched h0 = availablePaths)
            /\ (pre <> [] -> all_reported availablePaths h0)
            /\ ((pre = [] /\ forall e, pc s <> PcReturned e)
                \/ (pre = [EvSleep 2] /\ forall e, pc s <> PcReturned e)
                \/ (pre = [EvClose; EvSleep 2]
                    /\ forall e, pc s <> PcReturned e)
                \/ (pre = [EvUnregRecv; EvClose; EvSleep 2]
                    /\ forall e, pc s <> PcReturned e)
                \/ pre = [EvFinish err; EvUnregRecv; EvClose; EvSleep 2])).
  { unfold Run_inv in Hinv.
    destruct (pc s) as [|rest|k first|err|err|err|err|err] eqn:Hpc;
      cbn [joggers_launched].
    - destruct Hinv as (Hh & _). exists [], [], None. rewrite Hh.
      do 5 (split; [shape_side|]). left. split; [reflexivity|discriminate].
    - destruct Hinv as (He & Hl & _). exists [], (history s), None.
      do 5 (split; [shape_side|]). left. split; [reflexivity|discriminate].
    - destruct Hinv as (He & Hl & _). exists [], (history s), None.
      do 5 (split; [shape_side|]). left. split; [reflexivity|discriminate].
    - destruct Hinv as (_ & He & Hl & Hr). exists [], (history s), None.
      do 5 (split; [shape_side|]). left. split; [reflexivity|discriminate].
    - destruct Hinv as (_ & h0 & -> & He & Hl & Hr).
      exists [EvSleep 2], h0, None.
      do 5 (split; [shape_side|]).
      right. left. split; [reflexivity|discriminate].
    - destruct Hinv as (_ & h0 & -> & He & Hl & Hr).
      exists [EvClose; EvSleep 2], h0, None.
      do 5 (split; [shape_side|]).
      right. right. left. split; [reflexivity|discriminate].
    - destruct Hinv as (_ & h0 & -> & He & Hl & Hr).
      exists [EvUnregRecv; EvClose; EvSleep 2], h0, None.
      do 5 (split; [shape_side|]).
      right. right. right. left. split; [reflexivity|discriminate].
    - destruct Hinv as (_ & h0 & -> & He & Hl & Hr).
      exists [EvFinish err; EvUnregRecv; EvClose; EvSleep 2], h0, err.
      do 5 (split; [shape_side|]).
      right. right. right. right. reflexivity. }
  destruct Hshape as (pre & h0 & err0 & Hh & He & Hpref & Hl & Hr & Hpre).
  pose proof (finishes_early h0 He) as Hf.
  assert (Hlate : forall e later earlier,
            early_event e = false ->
            history s = later ++ e :: earlier ->
            exists l2, pre = later ++ e :: l2 /\ earlier = l2 ++ h0).
  { intros e later earlier Hlate H. rewrite Hh in H.
    eapply late_in_prefix; eassumption. }
  assert (Hlaunched : launched (history s) = launched h0).
  { rewrite Hh.
    destruct Hpre as [[-> _]|[[-> _]|[[-> _]|[[-> _]| ->]]]]; reflexivity. }
  rewrite Hlaunched.
  split; [exact Hpref|]. split; [exact Hl|].
  split; [|split; [|split; [|split]]].
  - intros later earlier H.
    destruct (Hlate EvClose _ _ eq_refl H) as (l2 & Hp & ->).
    destruct Hpre as [[-> _]|[[-> _]|[[-> _]|[[-> _]| ->]]]];
      decomp Hp; specialize (Hr ltac:(discriminate));
      pose proof Hr as (_ & _ & Hn);
      cbn [app reports In];
      (split; [exists h0; split; [reflexivity|exact Hr]|auto]).
  - intros later earlier H.
    destruct (Hlate EvUnregRecv _ _ eq_refl H) as (l2 & Hp & ->).
    destruct Hpre as [[-> _]|[[-> _]|[[-> _]|[[-> _]| ->]]]];
      decomp Hp; specialize (Hr ltac:(discriminate));
      pose proof Hr as (_ & _ & Hn);
      cbn [app reports In];
      (split; [exists h0; split; [reflexivity|exact Hr]|auto]).
  - intros later err earlier H.
    destruct (Hlate (EvFinish err) _ _ eq_refl H) as (l2 & Hp & ->).
    destruct Hpre as [[-> _]|[[-> _]|[[-> _]|[[-> _]| ->]]]];
      decomp Hp; specialize (Hr ltac:(discriminate));
      pose proof Hr as (_ & _ & Hn);
      cbn [app reports In finishes];
      (split; [exists h0; split; [reflexivity|exact Hr]|auto 10]).
  - intros err Hpc. rewrite Hh.
    destruct Hpre as [[-> Hn]|[[-> Hn]|[[-> Hn]|[[-> Hn]| ->]]]];
      try (exfalso; exact (Hn err Hpc)).
    cbn [app finishes]. rewrite Hf. reflexivity.
  - apply Run_can_complete. exact Hinv.
Qed.

End Run.

Lemma run_model_reachable : reachable run_model_avail run_model_final.
Proof.
  unfold reachable, run_model_avail, Sys_init.
  eapply rtc_l; [apply step_open; reflexivity|cbn].
  eapply rtc_l; [eapply step_go; reflexivity|cbn].
  eapply rtc_l; [eapply step_go; reflexivity|cbn].
  eapply rtc_l; [apply step_joggers_ret; reflexivity|cbn].
  eapply rtc_l;
    [apply (step_report _ _ [] "mp2" ["mp1"] run_model_err); reflexivity|cbn].
  eapply rtc_l;
    [apply (step_report _ _ [] "mp1" [] None); reflexivity|cbn].
  eapply rtc_l; [eapply step_recv; reflexivity|cbn].
  eapply rtc_l; [eapply step_recv; reflexivity|cbn].
  eapply rtc_l; [eapply step_wait_ret; reflexivity|cbn].
  eapply rtc_l; [eapply step_sleep; reflexivity|cbn].
  eapply rtc_l; [eapply step_close; reflexivity|cbn].
  eapply rtc_l; [eapply step_unreg; reflexivity|cbn].
  eapply rtc_l; [eapply step_finish; reflexivity|cbn].
  apply rtc_refl.
Qed.

Lemma Run_joggers_close_finish_witness :
  reachable run_model_avail run_model_final
  /\ launched (history run_model_final) = run_model_avail
  /\ finishes (history run_model_final) = 1%nat
  /\ (forall later earlier,
        history run_model_final = later ++ EvClose :: earlier ->
        (exists h0, earlier = EvSleep 2 :: h0
                    /\ all_reported run_model_avail h0)
        /\ reports earlier = length run_model_avail
        /\ In (EvSleep 2) earlier).
Proof.
  split; [exact run_model_reachable|].
  destruct (Run_joggers_close_finish run_model_avail run_model_final
              run_model_reachable)
    as (_ & Hl & Hc & _ & _ & Hf & _).
  split; [apply Hl; reflexivity|].
  split; [apply (Hf run_model_err); reflexivity|exact Hc].
Defined.

(** ** The capacity check on a sample job *)

(** C3: a walk of sixteen objects of which the first is not copied.  The
    sixteenth object processed is the fifteenth copied: the capacity
    status, which carries an error, is not polled and the walk returns
    nil. *)
Lemma interval_counts_copied_counterexample :
  (walk (copyObject (job_model (Some (CollabError false "used 96%"))))
     ({| lomName := "skip"; Size := 100 |}
      :: repeat {| lomName := "obj"; Size := 100 |} 15) state_model).1
  = None
  /\ processed_count
       (trace
          (walk (copyObject (job_model (Some (CollabError false "used 96%"))))
             ({| lomName := "skip"; Size := 100 |}
              :: repeat {| lomName := "obj"; Size := 100 |} 15)
             state_model).2) = 16%nat
  /\ Z.rem 16 throttleNumObjects = 0
  /\ capPolls
       (walk (copyObject (job_model (Some (CollabError false "used 96%"))))
          ({| lomName := "skip"; Size := 100 |}
           :: repeat {| lomName := "obj"; Size := 100 |} 15)
          state_model).2 = O
  /\ GetCapStatus (job_model (Some (CollabError false "used 96%"))) O
     = Some (CollabError false "used 96%").
Proof. vm_compute. repeat split. Qed.

Lemma copyObject_aborts_witness :
  0 < throttleNumObjects /\ int64 (num state_model)
  /\ int64 (num state_model + Z.of_nat 17)
  /\ (walk (copyObject (job_model (Some (CollabError false "used 96%"))))
        ({| lomName := "skip"; Size := 100 |}
         :: repeat {| lomName := "obj"; Size := 100 |} 16) state_model).1
     = Some (AbortedError ("copybck(" +:+ dquote +:+ "x1" +:+ dquote +:+ ")")
               "used 96%")
  /\ num
       (walk (copyObject (job_model (Some (CollabError false "used 96%"))))
          ({| lomName := "skip"; Size := 100 |}
           :: repeat {| lomName := "obj"; Size := 100 |} 16) state_model).2
     = 0 + Z.of_nat 16 - Z.of_nat 0
  /\ Z.of_nat
       (capPolls
          (walk (copyObject (job_model (Some (CollabError false "used 96%"))))
             ({| lomName := "skip"; Size := 100 |}
              :: repeat {| lomName := "obj"; Size := 100 |} 16)
             state_model).2)
     = Z.of_nat 0 + 16 / 16 - 0 / 16.
Proof.
  assert (HT : 0 < @throttleNumObjects cmn_model) by reflexivity.
  assert (H0 : int64 (num state_model)) by (unfold int64; cbn; lia).
  assert (H1 : int64 (num state_model + Z.of_nat 17))
    by (unfold int64; cbn; lia).
  split; [exact HT|]. split; [exact H0|]. split; [exact H1|].
  split; [reflexivity|].
  destruct (copyObject_aborts
              (job_model (Some (CollabError false "used 96%")))
              {| lomName := "skip"; Size := 100 |} state_model)
    as (_ & _ & _ & _ & _ & Hw).
  destruct (Hw ({| lomName := "skip"; Size := 100 |}
                :: repeat {| lomName := "obj"; Size := 100 |} 16)
              HT H0 H1) as [Hn Hp].
  split; [exact Hn|exact Hp].
Defined.

(** ** The jogger on a sample job *)

Example copyObject_copied_example :
  copyObject (job_model None) {| lomName := "obj"; Size := 100 |} state_model
  = (None,
     {| objCount := 1; bytesCount := 200; num := 1; buf := None;
        slabLive := ∅; capPolls := 0;
        trace := [EvNumInc; EvBytesAdd 200; EvObjectsInc;
                  EvCopyObject {| lomName := "obj"; Size := 100 |} None] |}).
Proof. reflexivity. Qed.

Example copyObject_skipped_example :
  copyObject (job_model None) {| lomName := "skip"; Size := 100 |} state_model
  = (None,
     {| objCount := 0; bytesCount := 0; num := 0; buf := None;
        slabLive := ∅; capPolls := 0;
        trace := [EvCopyObject {| lomName := "skip"; Size := 100 |} None] |}).
Proof. reflexivity. Qed.

Example copyObject_capacity_example :
  (copyObject (job_model (Some (CollabError false "used 96%")))
     {| lomName := "obj"; Size := 100 |}
     {| objCount := 15; bytesCount := 3000; num := 15; buf := None;
        slabLive := ∅; capPolls := 0; trace := [] |}).1
  = Some (AbortedError ("copybck(" +:+ dquote +:+ "x1" +:+ dquote +:+ ")")
            "used 96%").
Proof. reflexivity. Qed.

Example copyObject_oos_example :
  (copyObject (job_model None) {| lomName := "full"; Size := 100 |}
     state_model).1
  = Some (AbortedError ("copybck(" +:+ dquote +:+ "x1" +:+ dquote +:+ ")")
            "no space left on device").
Proof. reflexivity. Qed.

Example jog_example :
  trace (jog (job_model None)
           [ {| lomName := "obj"; Size := 100 |};
             {| lomName := "full"; Size := 7 |};
             {| lomName := "late"; Size := 1 |} ] state_model).2
  = [ EvSlabFree (Some (fresh (∅ : gset nat)));
      EvJoggerDone
        (Some (AbortedError
                 ("copybck(" +:+ dquote +:+ "x1" +:+ dquote +:+ ")")
                 "no space left on device"));
      EvCopyObject {| lomName := "full"; Size := 7 |}
        (Some (fresh (∅ : gset nat)));
      EvNumInc; EvBytesAdd 200; EvObjectsInc;
      EvCopyObject {| lomName := "obj"; Size := 100 |}
        (Some (fresh (∅ : gset nat)));
      EvSlabAlloc (fresh (∅ : gset nat)) ].
Proof. reflexivity. Qed.


(** * More of the code: proofs *)

(** ** More of the content registry *)

Lemma Reg_result (f : contentSpecMgr) (contentType : string)
  (spec : ContentResolver) :
  (CSM.Reg f contentType spec).1 =
    (if valid_type contentType
     then match m f !! contentType with
          | Some _ => f
          | None => {| m := <[contentType := spec]> (m f) |}
          end
     else f)
  /\ ((CSM.Reg f contentType spec).2 = None
      <-> valid_type contentType = true /\ m f !! contentType = None).
Proof.
  unfold CSM.Reg, valid_type.
  destruct (Go.ContainsRune contentType Go.Separator); cbn [negb andb fst snd].
  - split; [reflexivity|]. split; [discriminate|intros [? _]; discriminate].
  - destruct (Go.len contentType =? contentTypeLen)%nat; cbn [negb fst snd].
    + destruct (m f !! contentType); cbn [fst snd]; split; try reflexivity;
        split; try discriminate; auto. intros [_ ?]. discriminate.
    + split; [reflexivity|]. split; [discriminate|intros [? _]; discriminate].
Qed.

(** X1.  [Reg] never replaces or removes a resolver: what [Resolver]
    returned before the call it returns after it, for every content type;
    the resolvers of the other content types are what they were; and a
    call that returns an error leaves the registry as it was. *)
Theorem Reg_keeps_registrations (f : contentSpecMgr) (contentType : string)
  (spec : ContentResolver) :
  (forall ct r, CSM.Resolver f ct = Some r ->
     CSM.Resolver (CSM.Reg f contentType spec).1 ct = Some r)
  /\ (forall ct, ct <> contentType ->
        CSM.Resolver (CSM.Reg f contentType spec).1 ct = CSM.Resolver f ct)
  /\ (forall msg, (CSM.Reg f contentType spec).2 = Some msg ->
        (CSM.Reg f contentType spec).1 = f).
Proof.
  destruct (Reg_result f contentType spec) as [Hf He].
  unfold CSM.Resolver. rewrite Hf. split; [|split].
  - intros ct r Hr. destruct (valid_type contentType); [|exact Hr].
    destruct (m f !! contentType) eqn:E; [exact Hr|]. cbn [m].
    rewrite lookup_insert_ne; [exact Hr|]. intros ->. congruence.
  - intros ct Hne. destruct (valid_type contentType); [|reflexivity].
    destruct (m f !! contentType); [reflexivity|]. cbn [m].
    apply lookup_insert_ne. congruence.
  - intros msg Hmsg. destruct (valid_type contentType) eqn:Ev; [|reflexivity].
    destruct (m f !! contentType) eqn:E; [reflexivity|].
    destruct He as [_ He]. rewrite He in Hmsg by auto. discriminate.
Qed.

Lemma RegAll_lookup_from (f : contentSpecMgr)
  (regs : list (string * ContentResolver)) (ct : string) :
  m (RegAll f regs) !! ct =
    match m f !! ct with
    | Some r => Some r
    | None => if valid_type ct then first_reg regs ct else None
    end.
Proof.
  revert f. induction regs as [|[c spec] rest IH]; intros f; cbn [RegAll first_reg].
  - destruct (m f !! ct), (valid_type ct); reflexivity.
  - rewrite IH. destruct (Reg_result f c spec) as [-> _].
    destruct (String.eqb_spec c ct) as [->|Hne].
    + destruct (valid_type ct) eqn:Ev.
      * destruct (m f !! ct) eqn:E; [rewrite E; reflexivity|].
        cbn [m]. rewrite lookup_insert_eq. reflexivity.
      * destruct (m f !! ct); reflexivity.
    + destruct (valid_type c); [|reflexivity].
      destruct (m f !! c); [reflexivity|]. cbn [m].
      rewrite lookup_insert_ne by exact Hne. reflexivity.
Qed.

(** X2.  After any run of [Reg] calls on an empty registry, [Resolver]
    gives for a content type the resolver of its first registration, if
    the content type has length 2 and no separator, and nothing otherwise:
    a later registration of the same content type changes nothing, and
    every key of the registry has length 2 and no separator. *)
Theorem RegAll_first_registration_wins
  (regs : list (string * ContentResolver)) (ct : string) :
  CSM.Resolver (RegAll {| m := ∅ |} regs) ct =
    (if valid_type ct then first_reg regs ct else None)
  /\ (is_Some (CSM.Resolver (RegAll {| m := ∅ |} regs) ct) ->
      Go.len ct = contentTypeLen
      /\ Go.ContainsRune ct Go.Separator = false).
Proof.
  unfold CSM.Resolver. rewrite RegAll_lookup_from. cbn [m].
  rewrite lookup_empty. split; [reflexivity|].
  unfold valid_type. destruct (Go.ContainsRune ct Go.Separator); cbn [negb andb].
  - intros [? ?]. discriminate.
  - destruct (Nat.eqb_spec (Go.len ct) contentTypeLen); [auto|].
    intros [? ?]. discriminate.
Qed.

(** ** More of the FQN codec *)

Section CodecMore.
Context `{L : FQNLayout}.

(** What a successful [FileSpec] tells about the path. *)
Lemma FileSpec_inv (f : contentSpecMgr) (fqn : string)
  (spec : ContentResolver) (info : ContentInfo) :
  CSM.FileSpec f fqn = (Some spec, Some info) ->
  CSM.Resolver f (CType info) = Some spec
  /\ (exists p, ParseFQN fqn = Some p /\ ContentType p = CType info)
  /\ Dir info = (Go.Split fqn).1
  /\ Go.HasSuffix (Dir info) "/" = true
  /\ (Go.Split fqn).2 <> ""
  /\ Dir info +:+ (Go.Split fqn).2 = fqn
  /\ ParseUniqueFQN spec (Go.Split fqn).2 = (Base info, Old info, true).
Proof.
  unfold CSM.FileSpec, CSM.Resolver.
  destruct (Split_spec fqn) as (Hcat & _ & _).
  destruct (Go.Split fqn) as [dir base]; cbn [fst snd] in *.
  destruct (Go.HasSuffix dir "/") eqn:Hs; cbn [negb orb]; [|discriminate].
  destruct (String.eqb_spec base "") as [->|Hne]; [discriminate|].
  destruct (ParseFQN fqn) as [p|]; [|discriminate].
  destruct (m f !! ContentType p) as [spec'|] eqn:Hm; [|discriminate].
  destruct (ParseUniqueFQN spec' base) as [[orig old] ok] eqn:Eu.
  destruct ok; cbn [negb]; [|discriminate].
  intros [= -> <-]. cbn [Dir Base CType Old]. eauto 10.
Qed.

(** X3.  When [FileSpec] returns a resolver and an information, the
    resolver is the one registered for the content type reported, which is
    the one [ParseFQN] finds; [Dir] is the directory part of the path and
    ends with the separator; the base name of the path is not empty, [Dir]
    followed by it is the path, and [Base] and [Old] are what the resolver
    parses from it. *)
Theorem FileSpec_sound (f : contentSpecMgr) (fqn : string)
  (spec : ContentResolver) (info : ContentInfo) :
  CSM.FileSpec f fqn = (Some spec, Some info) ->
  CSM.Resolver f (CType info) = Some spec
  /\ (exists p, ParseFQN fqn = Some p /\ ContentType p = CType info)
  /\ Dir info = (Go.Split fqn).1
  /\ Go.HasSuffix (Dir info) "/" = true
  /\ (Go.Split fqn).2 <> ""
  /\ Dir info +:+ (Go.Split fqn).2 = fqn
  /\ ParseUniqueFQN spec (Go.Split fqn).2 = (Base info, Old info, true).
Proof. apply FileSpec_inv. Qed.

Lemma builtin_cases (pid : Z) (f : contentSpecMgr) (fqn : string) :
  builtin_registry pid f ->
  CSM.FileSpec f fqn = (None, None)
  \/ (exists info, Old info = false
        /\ (CSM.FileSpec f fqn = (Some ObjectContentResolver, Some info)
            \/ CSM.FileSpec f fqn = (Some ECSliceContentResolver, Some info)
            \/ CSM.FileSpec f fqn = (Some ECMetaContentResolver, Some info)))
  \/ (exists info,
        CSM.FileSpec f fqn = (Some (WorkfileContentResolver pid), Some info)).
Proof.
  intros Hb.
  destruct (FileSpec_both_or_neither f fqn) as [H|(spec & info & H)];
    [left; exact H|].
  destruct (FileSpec_inv f fqn spec info H) as (Hm & _ & _ & _ & _ & _ & Hu).
  destruct (Hb _ _ Hm) as [->|[->|[->| ->]]].
  - right. left. exists info. injection Hu as _ <-. auto.
  - right. right. eauto.
  - right. left. exists info. injection Hu as _ <-. auto.
  - right. left. exists info. injection Hu as _ <-. auto.
Qed.

(** X4.  With no resolvers registered but the four of fs/content.go:
    [PermToEvict] permits eviction of every path; [PermToProcess] permits
    only what decodes as an object, and that may also be moved;
    [PermToMove] refuses only what does not decode or decodes as a
    workfile; and only a workfile is reported old. *)
Theorem builtin_policy (pid : Z) (f : contentSpecMgr) (fqn : string) :
  builtin_registry pid f ->
  (exists old, CSM.PermToEvict f fqn = Some (true, old))
  /\ (CSM.PermToProcess f fqn = true ->
      (CSM.FileSpec f fqn).1 = Some ObjectContentResolver
      /\ CSM.PermToMove f fqn = true)
  /\ (CSM.PermToMove f fqn = false ->
      (CSM.FileSpec f fqn).1 = None
      \/ (CSM.FileSpec f fqn).1 = Some (WorkfileContentResolver pid))
  /\ (forall ok, CSM.PermToEvict f fqn = Some (ok, true) ->
      (CSM.FileSpec f fqn).1 = Some (WorkfileContentResolver pid)).
Proof.
  intros Hb. unfold CSM.PermToEvict, CSM.PermToProcess, CSM.PermToMove.
  destruct (builtin_cases pid f fqn Hb)
    as [->|[(info & Hold & [->|[->| ->]])|(info & ->)]];
    cbn [fst snd PermToEvict PermToMove PermToProcess ObjectContentResolver
         ECSliceContentResolver ECMetaContentResolver
         WorkfileContentResolver];
    rewrite ?Hold;
    (split; [eauto|]); (split; [try discriminate; auto|]);
    (split; [try discriminate; auto|]); intros ok [= ]; auto.
Qed.

End CodecMore.

Section GenPolicy.
Context `{L : FQNLayout}.

Lemma FileSpec_of_Gen (f : contentSpecMgr) (pid : Z) (tie o : string)
  (contentType prefix : string) (spec : ContentResolver) (D : string) :
  m f !! contentType = Some spec ->
  codec_input pid tie o prefix spec ->
  (exists p,
     ParseFQN (D +:+ "/" +:+ GenUniqueFQN spec tie o prefix) = Some p
     /\ ContentType p = contentType) ->
  exists info,
    CSM.FileSpec f (D +:+ "/" +:+ GenUniqueFQN spec tie o prefix)
    = (Some spec, Some info) /\ Old info = false.
Proof.
  intros Hm Hin (p & Hp & Hct). subst contentType.
  destruct Hin as [Hne|Hne|Hne|HP Htd Hts Hne Hpd Hps]; eexists.
  - split; [apply (FileSpec_identity f D o p ObjectContentResolver (fun b => eq_refl)
                     Hne Hp Hm)|reflexivity].
  - split; [apply (FileSpec_identity f D o p ECSliceContentResolver (fun b => eq_refl)
                     Hne Hp Hm)|reflexivity].
  - split; [apply (FileSpec_identity f D o p ECMetaContentResolver (fun b => eq_refl)
                     Hne Hp Hm)|reflexivity].
  - split; [apply (FileSpec_workfile f pid D tie o prefix p HP Htd Hts Hne
                     Hpd Hps Hp Hm)|reflexivity].
Qed.

(** X5.  The policy of a path that [Gen] has just produced is that of the
    resolver of its content type: [PermToMove] and [PermToProcess] return
    what the resolver says, and [PermToEvict] returns what the resolver
    says and not old. *)
Theorem Gen_policy (f : contentSpecMgr) (pid : Z) (tie : string)
  (parts : PartsFQN) (contentType prefix : string) (spec : ContentResolver)
  (D : string) :
  m f !! contentType = Some spec ->
  codec_input pid tie (ObjectName parts) prefix spec ->
  MakePathFQN (PartsMountpath parts) (Bucket parts) contentType
    (GenUniqueFQN spec tie (ObjectName parts) prefix)
  = D +:+ "/" +:+ GenUniqueFQN spec tie (ObjectName parts) prefix ->
  (exists p,
     ParseFQN (D +:+ "/" +:+ GenUniqueFQN spec tie (ObjectName parts) prefix)
     = Some p /\ ContentType p = contentType) ->
  exists fqn,
    CSM.Gen f tie parts contentType prefix = Some fqn
    /\ CSM.PermToMove f fqn = PermToMove spec
    /\ CSM.PermToProcess f fqn = PermToProcess spec
    /\ CSM.PermToEvict f fqn = Some (PermToEvict spec, false).
Proof.
  intros Hm Hin Hmk Hp.
  destruct (FileSpec_of_Gen f pid tie _ contentType prefix spec D Hm Hin Hp)
    as (info & HF & Hold).
  eexists. unfold CSM.Gen. rewrite Hm. split; [reflexivity|].
  unfold CSM.PermToMove, CSM.PermToProcess, CSM.PermToEvict.
  rewrite Hmk, HF, Hold. auto.
Qed.

End GenPolicy.

(** ** More of the workfile names *)

Lemma IndexByte_cut (s : string) (c : ascii) (i : nat) :
  Go.IndexByte s c = Some i ->
  s = Go.slice_to i s +:+ String c (Go.slice_from (i + 1) s)
  /\ Go.IndexByte (Go.slice_to i s) c = None.
Proof.
  revert i. induction s as [|a s IH]; intros i; [discriminate|].
  rewrite IndexByte_cons. destruct (Ascii.eqb_spec a c) as [->|Hne].
  - intros [= <-]. split; reflexivity.
  - destruct (Go.IndexByte s c) as [j|]; [|discriminate].
    intros [= <-]. destruct (IH j eq_refl) as [Hs Hn].
    cbn [Go.slice_to Go.slice_from Nat.add]. rewrite append_cons, <- Hs.
    split; [reflexivity|]. rewrite IndexByte_cons, Hn.
    apply Ascii.eqb_neq in Hne. rewrite Hne. reflexivity.
Qed.

Lemma LastIndexByte_cut (s : string) (c : ascii) (i : nat) :
  Go.LastIndexByte s c = Some i ->
  s = Go.slice_to i s +:+ String c (Go.slice_from (i + 1) s)
  /\ Go.IndexByte (Go.slice_from (i + 1) s) c = None.
Proof.
  intros H. rewrite Nat.add_1_r. split; [|apply LastIndexByte_after; exact H].
  revert i H. induction s as [|a s IH]; intros i; [discriminate|].
  cbn [Go.LastIndexByte].
  destruct (Go.LastIndexByte s c) as [j|] eqn:E.
  - intros [= <-]. cbn [Go.slice_to Go.slice_from].
    rewrite append_cons. f_equal. apply IH. reflexivity.
  - destruct (Ascii.eqb_spec a c) as [->|]; [|discriminate].
    intros [= <-]. reflexivity.
Qed.

Lemma count_byte_append (s t : string) (c : ascii) :
  count_byte (s +:+ t) c = (count_byte s c + count_byte t c)%nat.
Proof.
  induction s as [|a s IH]; [reflexivity|].
  rewrite append_cons. cbn [count_byte]. rewrite IH. lia.
Qed.

Lemma slice_to_append_le (n : nat) (s t : string) :
  (n <= Go.len s)%nat -> Go.slice_to n (s +:+ t) = Go.slice_to n s.
Proof.
  revert s. induction n as [|n IH]; intros s Hn; [reflexivity|].
  destruct s as [|a s]; cbn [Go.len String.length] in Hn; [lia|].
  rewrite append_cons. cbn [Go.slice_to]. rewrite IH; [reflexivity|].
  unfold Go.len. lia.
Qed.

Lemma len_slice_to (n : nat) (s : string) : (Go.len (Go.slice_to n s) <= n)%nat.
Proof.
  unfold Go.len. revert s. induction n as [|n IH]; intros s; [simpl; lia|].
  destruct s as [|a s]; cbn [Go.slice_to String.length]; [lia|].
  specialize (IH s). lia.
Qed.

Lemma LastIndexByte_lt (s : string) (c : ascii) (i : nat) :
  Go.LastIndexByte s c = Some i -> (i < Go.len s)%nat.
Proof.
  unfold Go.len. revert i. induction s as [|a s IH]; intros i; [discriminate|].
  cbn [Go.LastIndexByte String.length].
  destruct (Go.LastIndexByte s c) as [j|].
  - intros [= <-]. specialize (IH j eq_refl). lia.
  - destruct (Ascii.eqb a c); [|discriminate]. intros [= <-]. lia.
Qed.

(** X6.  Whatever [ParseUniqueFQN] of the workfile resolver accepts has
    the form [prefix.orig.tie.pid]: a first field without dot, the name
    returned, and two last fields without dots of which the last is the
    hexadecimal number compared with the process id for the old flag; so
    the name has at least three dots.  When it rejects a name it returns
    the empty name and not old. *)
Theorem Workfile_Parse_sound (pid : Z) (base : string) :
  match Workfile_ParseUniqueFQN pid base with
  | (orig, old, true) =>
      exists pfx tie pidstr filePID,
        base = pfx +:+ "." +:+ orig +:+ "." +:+ tie +:+ "." +:+ pidstr
        /\ Go.IndexByte pfx dot = None
        /\ Go.IndexByte tie dot = None
        /\ Go.IndexByte pidstr dot = None
        /\ Go.ParseInt16 pidstr = Some filePID
        /\ old = negb (filePID =? pid)
        /\ (3 <= count_byte base dot)%nat
  | (orig, old, false) => orig = "" /\ old = false
  end.
Proof.
  unfold Workfile_ParseUniqueFQN.
  destruct (Go.IndexByte base dot) as [cntIndex|] eqn:E1; [|auto].
  destruct (IndexByte_cut _ _ _ E1) as [Hb1 Hpfx]. cbv zeta.
  set (base1 := Go.slice_from (cntIndex + 1) base) in *.
  destruct (Go.LastIndexByte base1 dot) as [pidIndex|] eqn:E2; [|auto].
  destruct (LastIndexByte_cut _ _ _ E2) as [Hb2 Hpid].
  destruct (Go.LastIndexByte (Go.slice_to pidIndex base1) dot)
    as [tieIndex|] eqn:E3; [|auto].
  destruct (LastIndexByte_cut _ _ _ E3) as [Hb3 Htie].
  destruct (Go.ParseInt16 (Go.slice_from (pidIndex + 1) base1))
    as [filePID|] eqn:E4; [|auto].
  assert (Horig : Go.slice_to tieIndex base1
                  = Go.slice_to tieIndex (Go.slice_to pidIndex base1)).
  { rewrite Hb2 at 1. apply slice_to_append_le.
    apply LastIndexByte_lt in E3. lia. }
  rewrite Horig.
  set (orig := Go.slice_to tieIndex (Go.slice_to pidIndex base1)) in *.
  assert (Hbase : base = Go.slice_to cntIndex base +:+ "." +:+ orig +:+ "."
                   +:+ Go.slice_from (tieIndex + 1)
                         (Go.slice_to pidIndex base1)
                   +:+ "." +:+ Go.slice_from (pidIndex + 1) base1).
  { rewrite Hb1 at 1. f_equal. change ("." +:+ ?x) with (String dot x).
    f_equal. rewrite Hb2 at 1. rewrite Hb3 at 1.
    rewrite append_assoc. reflexivity. }
  eexists _, _, _, filePID.
  split; [exact Hbase|]. repeat (split; [eassumption||reflexivity|]).
  rewrite Hbase.
  change ("." +:+ ?x) with (String dot "" +:+ x).
  rewrite !count_byte_append. cbn [count_byte].
  rewrite Ascii.eqb_refl. lia.
Qed.

Lemma sep_cut_inj (x1 x2 y1 y2 : string) (c : ascii) :
  Go.IndexByte y1 c = None -> Go.IndexByte y2 c = None ->
  x1 +:+ String c y1 = x2 +:+ String c y2 -> x1 = x2 /\ y1 = y2.
Proof.
  intros H1 H2 H.
  pose proof (LastIndexByte_sep x1 y1 c H1) as L1.
  pose proof (LastIndexByte_sep x2 y2 c H2) as L2.
  rewrite H in L1. rewrite L1 in L2. injection L2 as Hlen.
  assert (Hx : x1 = x2).
  { rewrite <- (slice_to_append x1 (String c y1)), H, Hlen.
    apply slice_to_append. }
  subst x2. split; [reflexivity|].
  apply (String.app_inj x1) in H. injection H as H. exact H.
Qed.

Lemma workfile_name_assoc (J t sp : string) :
  J +:+ "." +:+ t +:+ "." +:+ sp = (J +:+ String dot t) +:+ String dot sp.
Proof. rewrite append_assoc. reflexivity. Qed.

Lemma spid_inj (p1 p2 : Z) : int64 p1 -> int64 p2 -> spid p1 = spid p2 -> p1 = p2.
Proof.
  intros H1 H2 H. apply ParseInt16_FormatInt16 in H1, H2.
  unfold spid in H. rewrite H in H1. congruence.
Qed.

(** X7.  Two workfile names that [GenUniqueFQN] generates are equal only
    if they come from the same process, with the same tie breaker and the
    same cleaned path: in one process, a new tie breaker gives a new
    name. *)
Theorem Workfile_Gen_unique (p1 p2 : Z) (t1 t2 b1 b2 pr1 pr2 : string) :
  int64 p1 -> int64 p2 ->
  Go.IndexByte t1 dot = None -> Go.IndexByte t2 dot = None ->
  GenUniqueFQN (WorkfileContentResolver p1) t1 b1 pr1
  = GenUniqueFQN (WorkfileContentResolver p2) t2 b2 pr2 ->
  p1 = p2 /\ t1 = t2
  /\ Go.Join (Go.Split b1).1 (pr1 +:+ "." +:+ (Go.Split b1).2)
     = Go.Join (Go.Split b2).1 (pr2 +:+ "." +:+ (Go.Split b2).2).
Proof.
  intros HP1 HP2 Ht1 Ht2.
  cbn [GenUniqueFQN WorkfileContentResolver]. unfold Workfile_GenUniqueFQN.
  destruct (Go.Split b1) as [d1 f1], (Go.Split b2) as [d2 f2].
  cbn [fst snd]. rewrite !workfile_name_assoc. intros H.
  apply sep_cut_inj in H as [H Hs];
    [|apply spid_free; [reflexivity|discriminate]..].
  apply sep_cut_inj in H as [HJ Ht]; [|assumption..].
  split; [apply spid_inj; assumption|]. split; assumption.
Qed.

Lemma Workfile_Gen_unique_witness :
  int64 4242 /\ Go.IndexByte "abc" dot = None
  /\ GenUniqueFQN (WorkfileContentResolver 4242) "abc" "dir/obj" "put"
     = GenUniqueFQN (WorkfileContentResolver 4242) "abc" "dir//obj" "put"
  /\ Go.Join "dir/" "put.obj" = Go.Join "dir//" "put.obj".
Proof.
  split; [unfold int64; lia|]. split; [reflexivity|]. split; [reflexivity|].
  apply (Workfile_Gen_unique 4242 4242 "abc" "abc" "dir/obj" "dir//obj"
           "put" "put"); try reflexivity; unfold int64; lia.
Defined.

Section OtherProcess.
Context `{L : FQNLayout}.

Lemma FileSpec_workfile_other (f : contentSpecMgr) (P1 P2 : Z)
  (D tie o prefix : string) (p : ParsedFQN) :
  int64 P1 ->
  Go.IndexByte tie dot = None -> Go.IndexByte tie Go.Separator = None ->
  prefix <> "" ->
  Go.IndexByte prefix dot = None ->
  Go.IndexByte prefix Go.Separator = None ->
  ParseFQN (D +:+ "/" +:+ Workfile_GenUniqueFQN P1 tie o prefix) = Some p ->
  m f !! ContentType p = Some (WorkfileContentResolver P2) ->
  CSM.FileSpec f (D +:+ "/" +:+ Workfile_GenUniqueFQN P1 tie o prefix) =
    (Some (WorkfileContentResolver P2),
     Some {| Dir := (Go.Split (D +:+ "/"
                       +:+ Workfile_GenUniqueFQN P1 tie o prefix)).1;
             Base := (Go.Split o).2;
             CType := ContentType p; Old := negb (P1 =? P2) |}).
Proof.
  intros HP Htd Hts Hne Hpd Hps. unfold Workfile_GenUniqueFQN.
  destruct (Split_spec o) as (_ & Hfree & _).
  destruct (Go.Split o) as [d0 f0]; cbn [fst snd] in *.
  pose proof (prefixed_ordinary prefix f0 Hne (dot_free_not_dot _ Hpd)
                Hps Hfree) as He.
  destruct (Join_keeps_last d0 _ He) as (X & -> & HX).
  rewrite !append_assoc. intros Hp Hm.
  set (b := prefix +:+ "." +:+ f0 +:+ "." +:+ tie +:+ "." +:+ spid P1)
    in *.
  assert (Hbe : b = (prefix +:+ "." +:+ f0)
                     +:+ "." +:+ tie +:+ "." +:+ spid P1)
    by (unfold b; rewrite !append_assoc; reflexivity).
  assert (Hb : Go.IndexByte b Go.Separator = None).
  { rewrite Hbe.
    apply IndexByte_append_free; [apply He|].
    change ("." +:+ tie +:+ "." +:+ spid P1)
      with (String dot (tie +:+ String dot (spid P1))).
    rewrite IndexByte_cons. change (Ascii.eqb dot Go.Separator) with false.
    rewrite IndexByte_append_free; [reflexivity|exact Hts|].
    rewrite IndexByte_cons. change (Ascii.eqb dot Go.Separator) with false.
    rewrite spid_free; [reflexivity|reflexivity|discriminate]. }
  assert (Hbne : b <> "").
  { unfold b. destruct prefix; [congruence|]. rewrite append_cons.
    discriminate. }
  assert (Hu : ParseUniqueFQN (WorkfileContentResolver P2) b
               = (f0, negb (P1 =? P2), true)).
  { cbn [ParseUniqueFQN WorkfileContentResolver]. rewrite Hbe.
    rewrite (Workfile_Parse_name P1 P2 tie _ HP Htd).
    destruct (prefixed_name prefix f0 Hpd) as [-> ->]. reflexivity. }
  destruct (FileSpec_under f D X b p _ f0 _ HX Hb Hbne Hp Hm Hu)
    as [HS HF].
  rewrite HF, HS. reflexivity.
Qed.

(** X8.  For a workfile registered under the same content type in the
    processes [P1] and [P2], with [P1] an int64, a tie breaker without dot
    or separator, a prefix that is not empty and has neither, and a layout
    in which [MakePathFQN] puts the unique name after a separator and
    [ParseFQN] reads the content type back: the path that [Gen] produces
    in [P1], looked at in [P2], may be evicted, is old exactly when [P2]
    is not [P1], and may be neither moved nor processed. *)
Theorem Workfile_of_other_process_is_old (f1 f2 : contentSpecMgr)
  (P1 P2 : Z) (tie : string) (parts : PartsFQN)
  (contentType prefix D : string) :
  m f1 !! contentType = Some (WorkfileContentResolver P1) ->
  m f2 !! contentType = Some (WorkfileContentResolver P2) ->
  int64 P1 ->
  Go.IndexByte tie dot = None -> Go.IndexByte tie Go.Separator = None ->
  prefix <> "" ->
  Go.IndexByte prefix dot = None ->
  Go.IndexByte prefix Go.Separator = None ->
  MakePathFQN (PartsMountpath parts) (Bucket parts) contentType
    (Workfile_GenUniqueFQN P1 tie (ObjectName parts) prefix)
  = D +:+ "/" +:+ Workfile_GenUniqueFQN P1 tie (ObjectName parts) prefix ->
  (exists p,
     ParseFQN (D +:+ "/"
               +:+ Workfile_GenUniqueFQN P1 tie (ObjectName parts) prefix)
     = Some p /\ ContentType p = contentType) ->
  exists fqn,
    CSM.Gen f1 tie parts contentType prefix = Some fqn
    /\ CSM.PermToEvict f2 fqn = Some (true, negb (P1 =? P2))
    /\ CSM.PermToMove f2 fqn = false
    /\ CSM.PermToProcess f2 fqn = false.
Proof.
  intros Hm1 Hm2 HP Htd Hts Hne Hpd Hps Hmk (p & Hp & Hct).
  subst contentType.
  eexists. unfold CSM.Gen. rewrite Hm1.
  cbn [GenUniqueFQN WorkfileContentResolver].
  split; [reflexivity|]. rewrite Hmk.
  unfold CSM.PermToEvict, CSM.PermToMove, CSM.PermToProcess.
  rewrite (FileSpec_workfile_other f2 P1 P2 D tie _ prefix p HP Htd Hts Hne
             Hpd Hps Hp Hm2).
  auto.
Qed.

End OtherProcess.


(** ** More of the bucket-copy jogger *)

Lemma wrap64_wrap64_add (a b : Z) : wrap64 (wrap64 a + b) = wrap64 (a + b).
Proof. rewrite Z.add_comm, wrap64_add_wrap64. f_equal. lia. Qed.

Lemma repeat_middle {A : Type} (x : A) (k : nat) (l : list A) :
  repeat x k ++ x :: l = repeat x (S k) ++ l.
Proof.
  induction k as [|k IH]; [reflexivity|].
  cbn [repeat app] in *. rewrite IH. reflexivity.
Qed.

Section JoggerMore.
Context `{C : Cmn}.

(** X9.  [copyObject] returns nil exactly when the copy returned no error
    and no capacity poll found an error; an error of the copy is never
    dropped.  What it returns is nil, the error of the copy as it is, or an
    abort error made of the kind and id of the job. *)
Theorem copyObject_result (job : Job) (lom : LOM) (s : State) :
  ((copyObject job lom s).1 = None <->
     (CopyObject job lom (buf s)).2 = None
     /\ (capPolls (copyObject job lom s).2 = capPolls s
         \/ GetCapStatus job (capPolls s) = None))
  /\ ((copyObject job lom s).1 = None
      \/ (copyObject job lom s).1 = (CopyObject job lom (buf s)).2
      \/ exists details,
           (copyObject job lom s).1
           = Some (NewAbortedErrorDetails
                     (Kind job +:+ "(" +:+ Quote (ID job) +:+ ")") details)).
Proof.
  destruct (copyObject_cases job lom s) as (Hr & _ & _ & _ & Hp & _).
  cbv zeta in Hr, Hp. fold (what job). rewrite Hr, Hp.
  destruct ((CopyObject job lom (buf s)).1
            && (Z.rem (wrap64 (num s + 1)) throttleNumObjects =? 0)).
  - destruct (GetCapStatus job (capPolls s)) as [csErr|].
    + split; [|eauto]. split; [discriminate|].
      intros [_ [H|H]]; [lia|discriminate].
    + destruct ((CopyObject job lom (buf s)).2) as [err|];
        [destruct (IsErrOOS err)|]; split; eauto;
        split; try discriminate; auto; intros [? _]; discriminate.
  - destruct ((CopyObject job lom (buf s)).2) as [err|];
      [destruct (IsErrOOS err)|]; split; eauto;
      split; try discriminate; auto; intros [? _]; discriminate.
Qed.

Lemma copyObject_copy_bufs (job : Job) (lom : LOM) (s : State) :
  copy_bufs (trace (copyObject job lom s).2) = buf s :: copy_bufs (trace s).
Proof.
  unfold copyObject, copied_branch, bind, get_buf, call_CopyObject,
    ObjectsInc, BytesAdd, num_inc, get_num, poll_cap, ret.
  cbn [fst snd].
  destruct (CopyObject job lom (buf s)) as [[|] err]; cbn [fst snd].
  - cbn [num log objCount bytesCount buf slabLive capPolls trace].
    destruct (Z.rem (wrap64 (num s + 1)) throttleNumObjects =? 0).
    + cbn [capPolls log].
      destruct (GetCapStatus job (capPolls s)) as [csErr|]; cbn [fst snd].
      * reflexivity.
      * destruct err as [err|]; [destruct (IsErrOOS err)|]; reflexivity.
    + destruct err as [err|]; [destruct (IsErrOOS err)|]; reflexivity.
  - destruct err as [err|]; [destruct (IsErrOOS err)|]; reflexivity.
Qed.

Lemma walk_copy_bufs (job : Job) (loms : list LOM) (s : State) :
  exists k,
    copy_bufs (trace (walk (copyObject job) loms s).2)
    = repeat (buf s) k ++ copy_bufs (trace s)
    /\ (k <= length loms)%nat
    /\ ((walk (copyObject job) loms s).1 = None -> k = length loms).
Proof.
  revert s. induction loms as [|lom rest IH]; intros s.
  - exists O. split; [reflexivity|]. split; [reflexivity|reflexivity].
  - cbn [walk]. unfold bind.
    pose proof (copyObject_copy_bufs job lom s) as Hc.
    destruct (copyObject_cases job lom s) as (_ & _ & _ & _ & _ & _ & Hb & _).
    destruct (copyObject job lom s) as [[e|] s1]; cbn [fst snd] in *.
    + exists 1%nat. cbn [repeat app length]. split; [exact Hc|].
      split; [lia|discriminate].
    + destruct (IH s1) as (k & Hk & Hle & Hall). rewrite Hb in Hk.
      exists (S k). rewrite Hk, Hc. cbn [length].
      split; [apply repeat_middle|].
      split; [lia|]. intros H. rewrite Hall; auto.
Qed.

(** X10.  Every call of [CopyObject] that [jog] makes passes the buffer
    that [jog] took from the slab, and there is at most one call for each
    object of the walk. *)
Theorem jog_copies_use_buffer (job : Job) (loms : list LOM) (s : State) :
  exists k,
    copy_bufs (trace (jog job loms s).2)
    = repeat (Some (fresh (slabLive s))) k ++ copy_bufs (trace s)
    /\ (k <= length loms)%nat.
Proof.
  unfold jog, joggerBckBase_jog, bind, slab_Alloc, set_buf, get_buf,
    slab_Free. cbn [objCount bytesCount num buf slabLive capPolls trace log].
  set (b := fresh (slabLive s)).
  set (s1 := {| objCount := objCount s; bytesCount := bytesCount s;
                num := num s; buf := Some b;
                slabLive := {[ b ]} ∪ slabLive s; capPolls := capPolls s;
                trace := EvSlabAlloc b :: trace s |}).
  destruct (walk_copy_bufs job loms s1) as (k & Hk & Hle & _).
  destruct (walk (copyObject job) loms s1) as [e s2]; cbn [snd] in *.
  cbn [objCount bytesCount num buf slabLive capPolls trace log snd copy_bufs].
  exists k. split; [exact Hk|exact Hle].
Qed.

(** X11.  When every object of a walk is copied without error and the
    capacity status has no error, the walk returns nil, has called
    [CopyObject] once for each object, and has added the number of objects
    to the object counter and twice the sum of their sizes to the byte
    counter, in int64 arithmetic. *)
Theorem walk_counts_all_copied (job : Job) (loms : list LOM) (s : State) :
  (forall lom b, In lom loms -> CopyObject job lom b = (true, None)) ->
  (forall n, GetCapStatus job n = None) ->
  int64 (objCount s) -> int64 (bytesCount s) ->
  (walk (copyObject job) loms s).1 = None
  /\ objCount (walk (copyObject job) loms s).2
     = wrap64 (objCount s + Z.of_nat (length loms))
  /\ bytesCount (walk (copyObject job) loms s).2
     = wrap64 (bytesCount s + 2 * total_size loms)
  /\ copy_bufs (trace (walk (copyObject job) loms s).2)
     = repeat (buf s) (length loms) ++ copy_bufs (trace s).
Proof.
  intros Hcopy Hcap. revert s.
  induction loms as [|lom rest IH]; intros s Ho Hb.
  - cbn [walk ret fst snd length total_size repeat app Z.of_nat].
    rewrite Z.mul_0_r, !Z.add_0_r, !wrap64_small by assumption. auto.
  - cbn [walk]. unfold bind.
    pose proof (copyObject_copy_bufs job lom s) as Hc.
    destruct (copyObject_cases job lom s)
      as (Hr & Hoc & Hbc & _ & _ & _ & Hbuf & _).
    cbv zeta in Hr, Hoc, Hbc.
    rewrite (Hcopy lom (buf s)) in Hr, Hoc, Hbc by (left; reflexivity).
    cbn [fst snd andb] in Hr, Hoc, Hbc. rewrite Hcap in Hr.
    assert (Hr' : (copyObject job lom s).1 = None)
      by (rewrite Hr; destruct (_ =? _); reflexivity).
    clear Hr.
    destruct (copyObject job lom s) as [e s1]; cbn [fst snd] in *.
    subst e.
    destruct (IH (fun l b H => Hcopy l b (or_intror H)) s1)
      as (H1 & H2 & H3 & H4).
    { rewrite Hoc. apply wrap64_int64. }
    { rewrite Hbc. apply wrap64_int64. }
    split; [exact H1|].
    rewrite H2, H3, H4, Hoc, Hbc, Hc, Hbuf.
    rewrite wrap64_add_wrap64, !wrap64_wrap64_add.
    cbn [length total_size repeat].
    split; [f_equal; lia|]. split; [f_equal; lia|].
    apply repeat_middle.
Qed.

End JoggerMore.

(** ** More of [Run] *)

Section RunMore.
Context `{C : Cmn} {MountpathInfo : Type}.
#[local] Abbreviation event_ := (@RunEvent C MountpathInfo).
Implicit Types (s : @Sys C MountpathInfo) (h : list event_).

Lemma fold_first_error_Some (l : list (option error)) (e : error) :
  fold_left first_error l (Some e) = Some e.
Proof. induction l as [|x l IH]; [reflexivity|exact IH]. Qed.

Lemma first_of_spec (l : list (option error)) :
  match first_of l with
  | None => Forall (fun x => x = None) l
  | Some e =>
      exists l1 l2, l = l1 ++ Some e :: l2 /\ Forall (fun x => x = None) l1
  end.
Proof.
  unfold first_of. induction l as [|x l IH]; [constructor|].
  cbn [fold_left first_error]. destruct x as [e|].
  - rewrite fold_first_error_Some. exists [], l. split; [reflexivity|constructor].
  - destruct (fold_left first_error l None) as [e|].
    + destruct IH as (l1 & l2 & -> & Hl1). exists (None :: l1), l2.
      split; [reflexivity|constructor; auto].
    + constructor; auto.
Qed.

Lemma first_of_snoc (l : list (option error)) (e : option error) :
  first_of (l ++ [e]) = first_error (first_of l) e.
Proof. unfold first_of. rewrite fold_left_app. reflexivity. Qed.

Lemma Run_errors_inv_step (availablePaths : list MountpathInfo) s s' :
  Run_inv availablePaths s -> Run_errors_inv s ->
  step availablePaths s s' -> Run_errors_inv s'.
Proof.
  intros Hinv He Hstep. unfold Run_errors_inv, Run_inv in *.
  destruct Hstep as [s Hpc|s mp rest Hpc|s Hpc|s before mp after err Hj
                     |s awaited first e queue Hpc Hq|s first Hpc
                     |s err Hpc|s err Hpc|s err Hpc|s err Hpc];
    cbn [pc history joggers doneCh mpathCount report_errors] in *;
    try (rewrite Hpc in He; exact He).
  - rewrite Hpc in He. exists []. split; [exact He|reflexivity].
  - destruct (pc s) eqn:Hpc;
      try (destruct Hinv as [Hnil _]; rewrite Hnil in Hj;
           destruct before; discriminate).
    + rewrite He. reflexivity.
    + rewrite He. reflexivity.
    + destruct He as (received & Hr & Hf). exists received.
      rewrite Hr, app_assoc. auto.
  - rewrite Hpc in He. destruct He as (received & Hr & ->).
    exists (received ++ [e]). rewrite Hq in Hr.
    rewrite <- app_assoc. cbn [app]. split; [exact Hr|].
    symmetry. apply first_of_snoc.
  - rewrite Hpc in He, Hinv. destruct He as (received & Hr & ->).
    destruct Hinv as (_ & _ & H1 & H2).
    assert (Hd : doneCh s = []) by (apply length_zero_iff_nil; clear -H1 H2; lia).
    rewrite Hd, app_nil_r in Hr. split; [exact Hd|]. rewrite Hr. reflexivity.
Qed.

Lemma reachable_ind (availablePaths : list MountpathInfo)
  (P : @Sys C MountpathInfo -> Prop) :
  P Sys_init ->
  (forall y z, reachable availablePaths y -> step availablePaths y z ->
     P y -> P z) ->
  forall s, reachable availablePaths s -> P s.
Proof. intros H0 Hs s H. exact (rtc_ind_r P Sys_init H0 Hs s H). Qed.

Lemma Run_errors_inv_reachable (availablePaths : list MountpathInfo) s :
  reachable availablePaths s -> Run_errors_inv s.
Proof.
  revert s. apply reachable_ind; [reflexivity|].
  intros y z Hy Hstep IH.
  eapply Run_errors_inv_step; [|exact IH|exact Hstep].
  apply Run_inv_reachable. exact Hy.
Qed.

(** X12.  When [Run] has returned, [Finish] is the last event and carries
    the error that [Run] returns: the first error, in the order of the
    reports, among the reports of the joggers, of which there is one for
    each mountpath; it is nil exactly when every jogger reported nil. *)
Theorem Run_finishes_with_first_error (availablePaths : list MountpathInfo)
  s (err : option error) :
  reachable availablePaths s -> pc s = PcReturned err ->
  (exists h, history s = EvFinish err :: h)
  /\ err = first_of (report_errors (history s))
  /\ length (report_errors (history s)) = length availablePaths
  /\ match err with
     | None => Forall (fun e => e = None) (report_errors (history s))
     | Some e =>
         exists before after,
           report_errors (history s) = before ++ Some e :: after
           /\ Forall (fun e' => e' = None) before
     end.
Proof.
  intros Hreach Hpc.
  pose proof (Run_errors_inv_reachable _ _ Hreach) as He.
  pose proof (Run_inv_reachable _ _ Hreach) as Hinv.
  unfold Run_errors_inv, Run_inv in *. rewrite Hpc in He, Hinv.
  destruct He as (_ & He). destruct Hinv as (_ & h0 & Hh & _ & _ & Hr).
  split; [eauto|]. split; [exact He|]. split.
  - rewrite Hh. cbn [report_errors]. rewrite <- Hr. clear.
    induction h0 as [|e h0 IH]; [reflexivity|].
    destruct e; cbn [report_errors reports]; auto.
    rewrite length_app. cbn [length]. lia.
  - rewrite He. apply first_of_spec.
Qed.

Lemma Permutation_snoc_middle {A : Type} (l before after : list A) (x : A) :
  Permutation (l ++ before ++ x :: after) ((l ++ [x]) ++ before ++ after).
Proof.
  rewrite <- app_assoc. apply Permutation_app_head. cbn [app].
  symmetry. apply Permutation_middle.
Qed.

Lemma launched_reported_step (availablePaths : list MountpathInfo) s s' :
  Permutation (launched (history s)) (reported (history s) ++ joggers s) ->
  step availablePaths s s' ->
  Permutation (launched (history s')) (reported (history s') ++ joggers s').
Proof.
  intros H Hstep.
  destruct Hstep as [s Hpc|s mp rest Hpc|s Hpc|s before mp after err Hj
                     |s awaited first e queue Hpc Hq|s first Hpc
                     |s err Hpc|s err Hpc|s err Hpc|s err Hpc];
    cbn [pc history joggers doneCh launched reported] in *; try exact H.
  - rewrite H. rewrite <- app_assoc.
    apply Permutation_app_head. symmetry. apply Permutation_cons_append.
  - rewrite H, Hj. apply Permutation_snoc_middle.
Qed.

(** X13.  At every point of an execution of [Run], the joggers launched
    are those that have reported together with those still running; when
    [Run] has returned, the mountpaths whose joggers have reported are the
    mountpaths of the snapshot, each as often as it occurs there. *)
Theorem Run_each_jogger_reports_once (availablePaths : list MountpathInfo) s :
  reachable availablePaths s ->
  Permutation (launched (history s)) (reported (history s) ++ joggers s)
  /\ (forall err, pc s = PcReturned err ->
        Permutation (reported (history s)) availablePaths).
Proof.
  intros Hreach.
  assert (HP : Permutation (launched (history s))
                 (reported (history s) ++ joggers s)).
  { revert s Hreach. apply reachable_ind; [reflexivity|].
    intros y z Hy Hstep IH. eapply launched_reported_step; eassumption. }
  split; [exact HP|]. intros err Hpc.
  pose proof (Run_inv_reachable _ _ Hreach) as Hinv.
  unfold Run_inv in Hinv. rewrite Hpc in Hinv.
  destruct Hinv as (Hj & h0 & Hh & _ & Hl & _).
  rewrite Hj, app_nil_r in HP. rewrite <- HP, Hh. cbn [launched].
  rewrite Hl. reflexivity.
Qed.

Lemma Open_first_step (availablePaths : list MountpathInfo) s s' :
  Run_inv availablePaths s -> Open_first s ->
  step availablePaths s s' -> Open_first s'.
Proof.
  intros Hinv Ho Hstep. unfold Open_first in *.
  destruct Hstep as [s Hpc|s mp rest Hpc|s Hpc|s before mp after err Hj
                     |s awaited first e queue Hpc Hq|s first Hpc
                     |s err Hpc|s err Hpc|s err Hpc|s err Hpc];
    cbn [pc history] in *;
    try (destruct Ho as [[Hc _]|(_ & h & Hh & Hn)]; [congruence|];
         right; split; [discriminate|]; rewrite Hh;
         first [ exists h; split; [reflexivity|exact Hn]
               | eexists (_ :: h); split; [reflexivity|];
                 intros [Hc|Hc]; [discriminate|contradiction] ]).
  - destruct Ho as [[_ Hh]|(Hc & _)]; [|contradiction].
    right. split; [discriminate|]. rewrite Hh. exists []. split; [reflexivity|].
    intros [].
  - destruct Ho as [[Hc Hh]|(Hne & h & Hh & Hn)].
    + unfold Run_inv in Hinv. rewrite Hc in Hinv.
      destruct Hinv as (_ & Hnil & _). rewrite Hnil in Hj.
      destruct before; discriminate.
    + right. split; [exact Hne|]. rewrite Hh.
      eexists (_ :: h). split; [reflexivity|].
      intros [Hc|Hc]; [discriminate|contradiction].
Qed.

(** X14.  [Open] is the first thing that happens in an execution of [Run],
    and it happens once: a history that is not empty has [Open] as its
    oldest event and nowhere else. *)
Theorem Run_opens_first (availablePaths : list MountpathInfo) s :
  reachable availablePaths s ->
  history s = []
  \/ exists h, history s = h ++ [EvOpen] /\ ~ In EvOpen h.
Proof.
  intros Hreach.
  assert (Ho : Open_first s).
  { revert s Hreach. apply reachable_ind.
    - left. split; reflexivity.
    - intros y z Hy Hstep IH.
      eapply Open_first_step; [|exact IH|exact Hstep].
      apply Run_inv_reachable. exact Hy. }
  destruct Ho as [[_ H]|(_ & H)]; auto.
Qed.

End RunMore.

Section RunFinal.
Context `{C : Cmn} {MountpathInfo : Type}.

(** X15.  Once [Run] has returned nothing more happens: no statement of
    [Run] is left and no jogger is left to report. *)
Theorem Run_returned_is_final (availablePaths : list MountpathInfo)
  (s s' : @Sys C MountpathInfo) (err : option error) :
  reachable availablePaths s -> pc s = PcReturned err ->
  ~ step availablePaths s s'.
Proof.
  intros Hreach Hpc Hstep.
  pose proof (Run_inv_reachable _ _ Hreach) as Hinv.
  unfold Run_inv in Hinv. rewrite Hpc in Hinv. destruct Hinv as (Hj & _).
  destruct Hstep as [s Hpc'|s mp rest Hpc'|s Hpc'|s before mp after e Hj'
                     |s awaited first e queue Hpc' Hq|s first Hpc'
                     |s e Hpc'|s e Hpc'|s e Hpc'|s e Hpc'];
    try congruence.
  rewrite Hj in Hj'. destruct before; discriminate.
Qed.

End RunFinal.

(** ** Host names in log file names *)

Lemma strings_Split_len (s : string) (sep : ascii) :
  joined_len (strings_Split s sep) = (Go.len s + 1)%nat.
Proof.
  induction s as [|c s IH]; [reflexivity|].
  cbn [strings_Split]. destruct (Ascii.eqb c sep).
  - cbn [joined_len]. rewrite IH. unfold Go.len. simpl. lia.
  - destruct (strings_Split s sep) as [|e es]; cbn [joined_len] in *;
      unfold Go.len in *; simpl in *; lia.
Qed.

Lemma strings_Split_free (s : string) (sep c : ascii) :
  Go.IndexByte s c = None ->
  Forall (fun e => Go.IndexByte e c = None) (strings_Split s sep).
Proof.
  induction s as [|a s IH]; [repeat constructor|].
  rewrite IndexByte_cons. destruct (Ascii.eqb a c) eqn:Ea; [discriminate|].
  destruct (Go.IndexByte s c); [discriminate|]. intros _.
  specialize (IH eq_refl). cbn [strings_Split].
  destruct (Ascii.eqb a sep); [constructor; [reflexivity|exact IH]|].
  destruct (strings_Split s sep) as [|e es].
  - repeat constructor. rewrite IndexByte_cons, Ea. reflexivity.
  - inversion IH as [|? ? He Hes]; subst. constructor; [|exact Hes].
    rewrite IndexByte_cons, Ea, He. reflexivity.
Qed.

Lemma dash_join_free (p q : string) (c : ascii) :
  Go.IndexByte p c = None -> Go.IndexByte q c = None -> c <> "-"%char ->
  Go.IndexByte (p +:+ "-" +:+ q) c = None.
Proof.
  intros Hp Hq Hc. apply IndexByte_append_free; [exact Hp|].
  change ("-" +:+ q) with (String "-" q). rewrite IndexByte_cons, Hq.
  apply Ascii.eqb_neq in Hc. rewrite Ascii.eqb_sym, Hc. reflexivity.
Qed.

Lemma dash_join_len (p q : string) :
  Go.len (p +:+ "-" +:+ q) = (Go.len p + 1 + Go.len q)%nat.
Proof. rewrite !len_append. change (Go.len "-") with 1%nat. lia. Qed.

(** X16.  [shortHostname] never returns a name with a period, and never
    a name longer than its argument. *)
Theorem shortHostname_short_and_plain (hostname : string) :
  Go.IndexByte (shortHostname hostname) dot = None
  /\ (Go.len (shortHostname hostname) <= Go.len hostname)%nat.
Proof.
  unfold shortHostname.
  destruct (Go.IndexByte hostname dot) as [i|] eqn:E.
  - destruct (IndexByte_cut _ _ _ E) as [Hh Hn]. split; [exact Hn|].
    pose proof (len_slice_to i hostname). apply IndexByte_lt in E. lia.
  - destruct (_ || _); [split; [exact E|lia]|].
    pose proof (strings_Split_len hostname "-") as Hlen.
    pose proof (strings_Split_free hostname "-" dot E) as Hfree.
    destruct (strings_Split hostname "-") as [|p0 [|p1 rest]];
      cbn [length Nat.ltb Nat.leb]; try (split; [exact E|lia]).
    cbn [part nth joined_len] in *.
    inversion Hfree as [|? ? H0 Hf1]; subst.
    inversion Hf1 as [|? ? H1 Hf2]; subst.
    destruct (_ || _).
    + split; [apply dash_join_free; auto; discriminate|].
      rewrite dash_join_len. lia.
    + destruct rest as [|p2 rest]; cbn [nth joined_len] in *.
      * split; [apply dash_join_free; auto; discriminate|].
        rewrite dash_join_len. change (Go.len "") with 0%nat. lia.
      * inversion Hf2 as [|? ? H2 _]; subst.
        split; [apply dash_join_free; auto; discriminate|].
        rewrite dash_join_len. lia.
Qed.

(** X17.  For a host name with a period, [shortHostname] returns what is
    in front of the first period: the host name is the result, a period
    and a rest, and the result has no period. *)
Theorem shortHostname_truncates (hostname : string) :
  Go.ContainsRune hostname dot = true ->
  exists rest,
    hostname = shortHostname hostname +:+ "." +:+ rest
    /\ Go.IndexByte (shortHostname hostname) dot = None.
Proof.
  unfold Go.ContainsRune, shortHostname.
  destruct (Go.IndexByte hostname dot) as [i|] eqn:E; [|discriminate].
  intros _. destruct (IndexByte_cut _ _ _ E) as [Hh Hn].
  eexists. split; [exact Hh|exact Hn].
Qed.

Lemma shortHostname_truncates_witness :
  Go.ContainsRune "www.google.com" dot = true
  /\ shortHostname "www.google.com" = "www"
  /\ exists rest, "www.google.com"
                  = shortHostname "www.google.com" +:+ "." +:+ rest
                  /\ Go.IndexByte (shortHostname "www.google.com") dot
                     = None.
Proof.
  split; [reflexivity|]. split; [reflexivity|].
  apply (shortHostname_truncates "www.google.com"). reflexivity.
Defined.

Example shortHostname_examples :
  shortHostname "runner-r9rhlq8--project-4149-concurrent-0"
    = "runner-r9rhlq8"
  /\ shortHostname "runner--project-4149-concurrent-0" = "runner-project"
  /\ shortHostname "aistore-node" = "aistore-node"
  /\ shortHostname "averyveryverylonghostname" = "averyveryverylonghostname"
  /\ shortHostname "" = "".
Proof. repeat split. Qed.

(** ** The further properties on the sample instances *)

Lemma registry_model_builtin (pid : Z) :
  builtin_registry pid (registry_model pid).
Proof.
  intros ct spec.
  change (registry_model pid)
    with (RegAll {| m := ∅ |}
            [(ObjectType, ObjectContentResolver);
             (WorkfileType, WorkfileContentResolver pid);
             (ECSliceType, ECSliceContentResolver);
             (ECMetaType, ECMetaContentResolver)]).
  rewrite RegAll_lookup_from. cbn [m]. rewrite lookup_empty.
  destruct (valid_type ct); [|discriminate]. cbn [first_reg].
  repeat (destruct (String.eqb _ ct); [intros [= <-]; auto|]).
  discriminate.
Qed.

Lemma FileSpec_sound_witness :
  CSM.FileSpec (registry_model 4242) "/mp/bck/ob/dir/obj"
  = (Some ObjectContentResolver,
     Some {| Dir := "/mp/bck/ob/dir/"; Base := "obj"; CType := ObjectType;
             Old := false |})
  /\ CSM.Resolver (registry_model 4242) ObjectType
     = Some ObjectContentResolver
  /\ "/mp/bck/ob/dir/" +:+ (Go.Split "/mp/bck/ob/dir/obj").2
     = "/mp/bck/ob/dir/obj".
Proof.
  assert (H : CSM.FileSpec (registry_model 4242) "/mp/bck/ob/dir/obj"
               = (Some ObjectContentResolver,
                  Some {| Dir := "/mp/bck/ob/dir/"; Base := "obj";
                          CType := ObjectType; Old := false |}))
    by reflexivity.
  split; [exact H|].
  destruct (FileSpec_sound (registry_model 4242) "/mp/bck/ob/dir/obj"
              ObjectContentResolver
              {| Dir := "/mp/bck/ob/dir/"; Base := "obj";
                 CType := ObjectType; Old := false |} H)
    as (H1 & _ & _ & _ & _ & H2 & _).
  split; [exact H1|exact H2].
Defined.

Lemma builtin_policy_witness :
  builtin_registry 4242 (registry_model 4242)
  /\ (exists old,
        CSM.PermToEvict (registry_model 4242)
          "/mp/bck/wk/dir/put.obj.txt.abc.4d" = Some (true, old))
  /\ (CSM.PermToMove (registry_model 4242)
        "/mp/bck/wk/dir/put.obj.txt.abc.4d" = false ->
      (CSM.FileSpec (registry_model 4242)
         "/mp/bck/wk/dir/put.obj.txt.abc.4d").1 = None
      \/ (CSM.FileSpec (registry_model 4242)
            "/mp/bck/wk/dir/put.obj.txt.abc.4d").1
         = Some (WorkfileContentResolver 4242)).
Proof.
  split; [apply registry_model_builtin|].
  destruct (builtin_policy 4242 (registry_model 4242)
              "/mp/bck/wk/dir/put.obj.txt.abc.4d"
              (registry_model_builtin 4242))
    as (H1 & _ & H3 & _).
  split; [exact H1|exact H3].
Defined.

Lemma Gen_policy_witness :
  m (registry_model 4242) !! WorkfileType
    = Some (WorkfileContentResolver 4242)
  /\ codec_input 4242 "abc" "dir/obj.txt" "put" (WorkfileContentResolver 4242)
  /\ exists fqn,
       CSM.Gen (registry_model 4242) "abc" (parts_model "dir/obj.txt")
         WorkfileType "put" = Some fqn
       /\ CSM.PermToMove (registry_model 4242) fqn = false
       /\ CSM.PermToProcess (registry_model 4242) fqn = false
       /\ CSM.PermToEvict (registry_model 4242) fqn = Some (true, false).
Proof.
  assert (Hin : codec_input 4242 "abc" "dir/obj.txt" "put"
                  (WorkfileContentResolver 4242)).
  { constructor; try reflexivity; try discriminate. unfold int64. lia. }
  split; [reflexivity|]. split; [exact Hin|].
  apply (Gen_policy (registry_model 4242) 4242 "abc"
           (parts_model "dir/obj.txt") WorkfileType "put"
           (WorkfileContentResolver 4242) "/mp/bck/wk").
  - reflexivity.
  - exact Hin.
  - reflexivity.
  - eexists. split; reflexivity.
Defined.

Lemma Workfile_of_other_process_is_old_witness :
  int64 4242 /\ 4242 <> 77
  /\ exists fqn,
       CSM.Gen (registry_model 4242) "abc" (parts_model "dir/obj.txt")
         WorkfileType "put" = Some fqn
       /\ CSM.PermToEvict (registry_model 77) fqn
          = Some (true, negb (4242 =? 77))
       /\ CSM.PermToMove (registry_model 77) fqn = false
       /\ CSM.PermToProcess (registry_model 77) fqn = false.
Proof.
  split; [unfold int64; lia|]. split; [discriminate|].
  apply (Workfile_of_other_process_is_old (registry_model 4242)
           (registry_model 77) 4242 77 "abc" (parts_model "dir/obj.txt")
           WorkfileType "put" "/mp/bck/wk");
    try reflexivity; try discriminate.
  - unfold int64. lia.
  - eexists. split; reflexivity.
Defined.

Lemma walk_counts_all_copied_witness :
  int64 (objCount state_model) /\ int64 (bytesCount state_model)
  /\ (walk (copyObject (job_model None))
        [ {| lomName := "a"; Size := 100 |};
          {| lomName := "b"; Size := 100 |} ] state_model).1 = None
  /\ objCount
       (walk (copyObject (job_model None))
          [ {| lomName := "a"; Size := 100 |};
            {| lomName := "b"; Size := 100 |} ] state_model).2
     = wrap64 (0 + Z.of_nat 2)
  /\ bytesCount
       (walk (copyObject (job_model None))
          [ {| lomName := "a"; Size := 100 |};
            {| lomName := "b"; Size := 100 |} ] state_model).2
     = wrap64 (0 + 2 * (100 + (100 + 0))).
Proof.
  assert (H0 : int64 0) by (unfold int64; lia).
  split; [exact H0|]. split; [exact H0|].
  destruct (walk_counts_all_copied (job_model None)
              [ {| lomName := "a"; Size := 100 |};
                {| lomName := "b"; Size := 100 |} ] state_model)
    as (H1 & H2 & H3 & _).
  - intros lom b [<-|[<-|[]]]; reflexivity.
  - intros n. reflexivity.
  - exact H0.
  - exact H0.
  - split; [exact H1|]. split; [exact H2|exact H3].
Defined.

Lemma Run_finishes_with_first_error_witness :
  reachable run_model_avail run_model_final
  /\ pc run_model_final = PcReturned run_model_err
  /\ run_model_err = first_of (report_errors (history run_model_final))
  /\ length (report_errors (history run_model_final))
     = length run_model_avail.
Proof.
  split; [exact run_model_reachable|]. split; [reflexivity|].
  destruct (Run_finishes_with_first_error run_model_avail run_model_final
              run_model_err run_model_reachable eq_refl)
    as (_ & H1 & H2 & _).
  split; [exact H1|exact H2].
Defined.

Lemma Run_each_jogger_reports_once_witness :
  reachable run_model_avail run_model_final
  /\ Permutation (reported (history run_model_final)) run_model_avail.
Proof.
  split; [exact run_model_reachable|].
  destruct (Run_each_jogger_reports_once run_model_avail run_model_final
              run_model_reachable) as (_ & H).
  apply (H run_model_err). reflexivity.
Defined.

Lemma Run_opens_first_witness :
  reachable run_model_avail run_model_final
  /\ (history run_model_final = []
      \/ exists h, history run_model_final = h ++ [EvOpen]
                   /\ ~ In EvOpen h).
Proof.
  split; [exact run_model_reachable|].
  apply (Run_opens_first run_model_avail run_model_final).
  exact run_model_reachable.
Defined.

Lemma Run_returned_is_final_witness :
  reachable run_model_avail run_model_final
  /\ pc run_model_final = PcReturned run_model_err
  /\ forall s', ~ step run_model_avail run_model_final s'.
Proof.
  split; [exact run_model_reachable|]. split; [reflexivity|].
  intros s'.
  apply (Run_returned_is_final run_model_avail run_model_final s'
           run_model_err run_model_reachable eq_refl).
Defined.
